(** * latexref: the macro extraction of [get_jupyterbook_latex_macros.py]

    A shallow embedding of the script that walks the [pylatexenc] node
    lists of a Jupyter Book, collects the names of the macros used,
    cleans the resulting set and writes it to [macros_used.txt], and of
    the parts of [create_latex_reference.py] that read that file and name
    the output of the reference (module [Reference]); the calls to the
    remote service are left out.

    Python values are modelled as follows.
    - A [str] is a [string]; one [ascii] stands for one character, so the
      strings covered are those whose code points lie below 256.
    - A [set] of [str] is a [gset string].  Where the result depends on
      the order in which the script iterates over a set (the [join] of
      [write_file]) that order is a parameter.
    - The node classes of [pylatexenc.latexwalker] listed in the script's
      [LatexNodeType] are the constructors of [LatexNode].
    - An exception is [None] (or [inl] of the exception where several are
      told apart); printed lines and warnings are appended to a log. *)

From Stdlib Require Import Ascii.
From stdpp Require Import gmap strings list pretty.

#[local] Set Warnings "-clear-no-such-hyp".

Open Scope string_scope.
Open Scope list_scope.
Open Scope nat_scope.

(** ** The node classes of [pylatexenc.latexwalker] *)

(** The fields are those of pylatexenc 2.x.  [nodeargd] holds the
    [argnlist] of the parsed arguments: one entry per argument of the
    macro's signature, [None] for an optional argument that is absent. *)
#[local] Unset Elimination Schemes.
Inductive LatexNode : Type :=
  | LatexCharsNode (chars : string)
  | LatexGroupNode (nodelist : list LatexNode)
  | LatexMacroNode (macroname : string) (nodeargd : list (option LatexNode))
  | LatexEnvironmentNode (environmentname : string)
      (nodelist : list LatexNode) (nodeargd : list (option LatexNode))
  | LatexSpecialsNode (specials_chars : string)
  | LatexMathNode (displaytype : string) (nodelist : list LatexNode).
#[local] Set Elimination Schemes.

(** The classes themselves, the argument of [isNodeType]. *)
Inductive NodeClass : Type :=
  | CharsClass | GroupClass | MacroClass | EnvironmentClass
  | SpecialsClass | MathClass.

Global Instance NodeClass_eq_dec : EqDecision NodeClass.
Proof. solve_decision. Defined.

Definition class_of (node : LatexNode) : NodeClass :=
  match node with
  | LatexCharsNode _ => CharsClass
  | LatexGroupNode _ => GroupClass
  | LatexMacroNode _ _ => MacroClass
  | LatexEnvironmentNode _ _ _ => EnvironmentClass
  | LatexSpecialsNode _ => SpecialsClass
  | LatexMathNode _ _ => MathClass
  end.

(** [node.isNodeType(t)] is [isinstance(node, t)]; none of the six classes
    derives from another. *)
Definition isNodeType (node : LatexNode) (t : NodeClass) : bool :=
  bool_decide (class_of node = t).

(** Attribute access; [None] is Python's [AttributeError]. *)
Definition macroname (node : LatexNode) : option string :=
  match node with
  | LatexMacroNode name _ => Some name
  | _ => None
  end.

Definition nodelist (node : LatexNode) : option (list LatexNode) :=
  match node with
  | LatexGroupNode nl => Some nl
  | LatexEnvironmentNode _ nl _ => Some nl
  | LatexMathNode _ nl => Some nl
  | _ => None
  end.

(** ** The node classifier *)

Definition is_macro (node : LatexNode) : bool :=
  isNodeType node MacroClass.

Definition has_nodelist (node : LatexNode) : bool :=
  isNodeType node MathClass || isNodeType node EnvironmentClass.

(** ** The macro collector *)

(** A [for] loop over a list whose body may raise. *)
Fixpoint for_loop {A S : Type} (body : S → A → option S) (s : S)
    (l : list A) : option S :=
  match l with
  | [] => Some s
  | x :: l' => s' ← body s x; for_loop body s' l'
  end.

(** The body of the loop of [get_macros]; [self] is the function called
    at [get_macros(node.nodelist)]. *)
Definition loop_body (self : list LatexNode → option (gset string))
    (macros : gset string) (node : LatexNode) : option (gset string) :=
  if is_macro node then
    name ← macroname node; Some (macros ∪ {[name]})
  else if has_nodelist node then
    nl ← nodelist node; sub ← self nl; Some (macros ∪ sub)
  else Some macros.

(** [get_macros] as it is written, run with a bound [fuel] on the depth
    of the Python call stack; [None] is a [RecursionError] (or an
    [AttributeError], which the classifier rules out). *)
Fixpoint get_macros_fuel (fuel : nat) (node_list : list LatexNode)
    : option (gset string) :=
  match fuel with
  | 0 => None
  | S fuel' =>
      match node_list with
      | [] => Some ∅
      | _ => for_loop (loop_body (get_macros_fuel fuel')) ∅ node_list
      end
  end.

(** The same walk by recursion on the node: [visit node macros] is the
    set [macros] after one turn of the loop on [node].  The call stack is
    unbounded here. *)
Fixpoint visit (node : LatexNode) (macros : gset string) : gset string :=
  match node with
  | LatexMacroNode name _ => macros ∪ {[name]}
  | LatexMathNode _ nl | LatexEnvironmentNode _ nl _ =>
      macros ∪
        (fix walk (l : list LatexNode) (acc : gset string) : gset string :=
           match l with
           | [] => acc
           | node' :: l' => walk l' (visit node' acc)
           end) nl ∅
  | _ => macros
  end.

Definition get_macros (node_list : list LatexNode) : gset string :=
  match node_list with
  | [] => ∅
  | _ => foldl (λ macros node, visit node macros) ∅ node_list
  end.

(** ** Induction over node trees *)

Section LatexNode_induction.
Variable P : LatexNode → Prop.
Hypothesis P_chars : ∀ chars, P (LatexCharsNode chars).
Hypothesis P_group : ∀ nl, Forall P nl → P (LatexGroupNode nl).
Hypothesis P_macro : ∀ name args,
  Forall (from_option P True) args → P (LatexMacroNode name args).
Hypothesis P_environment : ∀ name nl args,
  Forall P nl → Forall (from_option P True) args →
  P (LatexEnvironmentNode name nl args).
Hypothesis P_specials : ∀ chars, P (LatexSpecialsNode chars).
Hypothesis P_math : ∀ displaytype nl,
  Forall P nl → P (LatexMathNode displaytype nl).

Fixpoint LatexNode_ind (node : LatexNode) : P node :=
  let children :=
    fix children (l : list LatexNode) : Forall P l :=
      match l with
      | [] => @List.Forall_nil _ P
      | n :: l' =>
          @List.Forall_cons _ P n l' (LatexNode_ind n) (children l')
      end in
  let arguments :=
    fix arguments (l : list (option LatexNode))
        : Forall (from_option P True) l :=
      match l with
      | [] => @List.Forall_nil _ (from_option P True)
      | a :: l' =>
          @List.Forall_cons _ (from_option P True) a l'
            match a with Some n => LatexNode_ind n | None => I end
            (arguments l')
      end in
  match node with
  | LatexCharsNode chars => P_chars chars
  | LatexGroupNode nl => P_group nl (children nl)
  | LatexMacroNode name args => P_macro name args (arguments args)
  | LatexEnvironmentNode name nl args =>
      P_environment name nl args (children nl) (arguments args)
  | LatexSpecialsNode chars => P_specials chars
  | LatexMathNode displaytype nl => P_math displaytype nl (children nl)
  end.
End LatexNode_induction.

(** ** Measures on node trees *)

(** Number of nodes of a tree, arguments included. *)
Fixpoint node_size (node : LatexNode) : nat :=
  let children := fix children (l : list LatexNode) : nat :=
    match l with [] => 0 | n :: l' => node_size n + children l' end in
  let arguments := fix arguments (l : list (option LatexNode)) : nat :=
    match l with
    | [] => 0
    | Some n :: l' => node_size n + arguments l'
    | None :: l' => arguments l'
    end in
  match node with
  | LatexCharsNode _ | LatexSpecialsNode _ => 1
  | LatexGroupNode nl | LatexMathNode _ nl => S (children nl)
  | LatexMacroNode _ args => S (arguments args)
  | LatexEnvironmentNode _ nl args => S (children nl + arguments args)
  end.

Definition list_size (node_list : list LatexNode) : nat :=
  foldr (λ node n, node_size node + n) 0 node_list.

(** Number of nested calls of [get_macros] that a node starts: none for
    a node the loop does not descend into. *)
Fixpoint node_depth (node : LatexNode) : nat :=
  match node with
  | LatexMathNode _ nl | LatexEnvironmentNode _ nl _ =>
      S ((fix children (l : list LatexNode) : nat :=
            match l with
            | [] => 0
            | n :: l' => node_depth n `max` children l'
            end) nl)
  | _ => 0
  end.

Definition list_depth (node_list : list LatexNode) : nat :=
  foldr (λ node d, node_depth node `max` d) 0 node_list.

(** The names of all macro nodes of a tree, one entry per node, wherever
    the node sits: in a math region, an environment body, a group or an
    argument. *)
Fixpoint macro_names (node : LatexNode) : list string :=
  let children := fix children (l : list LatexNode) : list string :=
    match l with [] => [] | n :: l' => macro_names n ++ children l' end in
  let arguments :=
    fix arguments (l : list (option LatexNode)) : list string :=
      match l with
      | [] => []
      | Some n :: l' => macro_names n ++ arguments l'
      | None :: l' => arguments l'
      end in
  match node with
  | LatexCharsNode _ | LatexSpecialsNode _ => []
  | LatexGroupNode nl | LatexMathNode _ nl => children nl
  | LatexMacroNode name args => name :: arguments args
  | LatexEnvironmentNode _ nl args => children nl ++ arguments args
  end.

Definition all_macro_names (node_list : list LatexNode) : list string :=
  flat_map macro_names node_list.

(** The names of the macro nodes that the loop of [get_macros] comes to:
    those of the list itself and of the node lists of math and environment
    nodes, at any depth. *)
Fixpoint reached_names (node : LatexNode) : list string :=
  match node with
  | LatexMacroNode name _ => [name]
  | LatexMathNode _ nl | LatexEnvironmentNode _ nl _ =>
      (fix children (l : list LatexNode) : list string :=
         match l with [] => [] | n :: l' => reached_names n ++ children l' end)
        nl
  | _ => []
  end.

Definition all_reached_names (node_list : list LatexNode) : list string :=
  flat_map reached_names node_list.

(** The collector as the specification words it: a node contributes its
    name if it is a macro node, the macros collected from its child list
    if it is a math or an environment node, nothing otherwise; the
    contributions are merged by union. *)
Fixpoint contribution (node : LatexNode) : gset string :=
  match node with
  | LatexMacroNode name _ => {[name]}
  | LatexMathNode _ nl | LatexEnvironmentNode _ nl _ =>
      ⋃ (contribution <$> nl)
  | _ => ∅
  end.

Definition get_macros_reference (node_list : list LatexNode) : gset string :=
  match node_list with
  | [] => ∅
  | _ => ⋃ (contribution <$> node_list)
  end.

(** ** Python strings *)

(** [str.isspace] on one character: the white space characters of
    CPython below code point 256. *)
Definition py_isspace (c : ascii) : bool :=
  let n := nat_of_ascii c in
  ((9 <=? n) && (n <=? 13)) || ((28 <=? n) && (n <=? 32))
  || (n =? 133) || (n =? 160).

Fixpoint lstrip (s : string) : string :=
  match s with
  | EmptyString => EmptyString
  | String c s' => if py_isspace c then lstrip s' else s
  end.

Fixpoint rstrip (s : string) : string :=
  match s with
  | EmptyString => EmptyString
  | String c s' =>
      match rstrip s' with
      | EmptyString => if py_isspace c then EmptyString else String c EmptyString
      | r => String c r
      end
  end.

(** [s.strip()] *)
Definition strip (s : string) : string := rstrip (lstrip s).

(** Truth value of a [str]: the empty string is false. *)
Definition truthy (s : string) : bool :=
  match s with EmptyString => false | String _ _ => true end.

(** [x in l] for a list of strings. *)
Definition py_in (x : string) (l : list string) : bool :=
  existsb (String.eqb x) l.

Definition newline : ascii := ascii_of_nat 10.

(** [sep.join(items)] *)
Fixpoint join (sep : string) (items : list string) : string :=
  match items with
  | [] => EmptyString
  | x :: rest =>
      match rest with
      | [] => x
      | _ => x +:+ sep +:+ join sep rest
      end
  end.

(** [s.split(c)] for a separator of one character. *)
Fixpoint split (c : ascii) (s : string) : list string :=
  match s with
  | EmptyString => [EmptyString]
  | String a s' =>
      if Ascii.eqb a c then EmptyString :: split c s'
      else match split c s' with
           | x :: r => String a x :: r
           | [] => [String a EmptyString]
           end
  end.

(** [c in s] for a character. *)
Fixpoint contains (c : ascii) (s : string) : bool :=
  match s with
  | EmptyString => false
  | String a s' => Ascii.eqb a c || contains c s'
  end.

(** [s.endswith(c)] for a character. *)
Fixpoint endswith (c : ascii) (s : string) : bool :=
  match s with
  | EmptyString => false
  | String a EmptyString => Ascii.eqb a c
  | String _ s' => endswith c s'
  end.

(** [s.rfind(c)]; [None] is Python's [-1]. *)
Fixpoint rfind (c : ascii) (s : string) : option nat :=
  match s with
  | EmptyString => None
  | String a s' =>
      match rfind c s' with
      | Some i => Some (S i)
      | None => if Ascii.eqb a c then Some 0 else None
      end
  end.

(** [s[i:]] *)
Fixpoint slice_from (i : nat) (s : string) : string :=
  match i, s with
  | 0, _ => s
  | S i', String _ s' => slice_from i' s'
  | S _, EmptyString => EmptyString
  end.

(** ** The set cleaner *)

(** The string made of the one character backslash. *)
Definition backslash : string := String (ascii_of_nat 92) EmptyString.

Definition problem_list : list string :=
  ["{"; "}"; "t"; "n"; "&"; backslash].

(** The condition of the comprehension of [final_clean]. *)
Definition keeps (item : string) : bool :=
  truthy (strip item) && negb (py_in item problem_list).

Definition final_clean (macros : gset string) : gset string :=
  filter (λ item, keeps item = true) macros.

(** ** Persistence *)

(** A file store: the text of each file, by name. *)
Abbreviation Files := (gmap string string).

Section Persistence.
(** The order in which Python iterates over a set: some enumeration of
    its elements. *)
Variable iter : gset string → list string.

(** The text that [write_file] hands to [f.write]. *)
Definition written_text (macros : gset string) : string :=
  join (String newline EmptyString) (iter macros).

(** Opening with mode ["w"] truncates: the old text is replaced. *)
Definition write_file (macros : gset string) (files : Files) : Files :=
  <["macros_used.txt" := written_text macros]> files.
End Persistence.


(** ** Paths and the scan of the book's folders *)

(** A [pathlib.Path] by its components; [p / name] appends one. *)
Abbreviation Path := (list string).

Definition joinpath (p : Path) (name : string) : Path := p ++ [name].

(** [p.name]: the final component. *)
Definition name (p : Path) : string := List.last p EmptyString.

(** [p.suffix] as [pathlib] computes it before Python 3.14: the part of
    the name from its last dot on, unless that dot is the first or the
    last character of the name. *)
Definition suffix (p : Path) : string :=
  match rfind "." (name p) with
  | Some i =>
      if (0 <? i) && (i <? String.length (name p) - 1)
      then slice_from i (name p)
      else EmptyString
  | None => EmptyString
  end.

(** What the file system holds at a path; a directory lists the names of
    its entries in the order [iterdir] yields them. *)
Inductive DirEntry : Type :=
  | Missing
  | RegularFile
  | Directory (names : list string).

Inductive Exn : Type :=
  | AssertionError (current_path : Path)
  | NotADirectoryError (current_path : Path).

(** What reaches the console: the line of [print] and the warning of
    [warnings.warn], each about one file. *)
Inductive Event : Type :=
  | PrintIgnoringHidden (file : Path)
  | WarnNonHidden (file : Path).

(** The two lists that the scan appends to, and the console. *)
Record Scan : Type := mkScan {
  all_md_filepaths : list Path;
  all_ipynb_filepaths : list Path;
  console : list Event
}.

(** The body of the inner loop of [get_content_filepaths]. *)
Definition classify (st : Scan) (file : Path) : Scan :=
  if String.eqb (suffix file) ".md" then
    mkScan (all_md_filepaths st ++ [file]) (all_ipynb_filepaths st)
      (console st)
  else if String.eqb (suffix file) ".ipynb" then
    mkScan (all_md_filepaths st) (all_ipynb_filepaths st ++ [file])
      (console st)
  else if negb (truthy (suffix file)) then
    mkScan (all_md_filepaths st) (all_ipynb_filepaths st)
      (console st ++ [PrintIgnoringHidden file])
  else
    mkScan (all_md_filepaths st) (all_ipynb_filepaths st)
      (console st ++ [WarnNonHidden file]).

(** How a call ends: with a value or with an exception, and with the
    console as it stands then. *)
Inductive Outcome (A : Type) : Type :=
  | Returned (a : A) (out : list Event)
  | Raised (e : Exn) (out : list Event).
Arguments Returned {A} a out.
Arguments Raised {A} e out.

Section Scanning.
Variable fs : Path → DirEntry.

(** The outer loop of [get_content_filepaths], from the state [st]. *)
Fixpoint scan_units (book_dir : Path) (unit_list : list string) (st : Scan)
    : Outcome (list Path * list Path) :=
  match unit_list with
  | [] => Returned (all_md_filepaths st, all_ipynb_filepaths st) (console st)
  | unit :: units =>
      let current_path := joinpath book_dir unit in
      match fs current_path with
      | Missing => Raised (AssertionError current_path) (console st)
      | RegularFile => Raised (NotADirectoryError current_path) (console st)
      | Directory names =>
          scan_units book_dir units
            (foldl classify st (joinpath current_path <$> names))
      end
  end.

Definition get_content_filepaths (book_dir : Path) (unit_list : list string)
    : Outcome (list Path * list Path) :=
  scan_units book_dir unit_list (mkScan [] [] []).
End Scanning.

(** ** Processing the files *)

Section Corpus.
(** The parser of [pylatexenc] behind [get_nodelist], the text of a
    markdown file, and the sources of the cells of a notebook as
    [jupytext.read] returns them. *)
Variable get_nodelist : string → list LatexNode.
Variable read_text : Path → string.
Variable read_cells : Path → list string.

(** [None] is the [AssertionError] of a file that is not a markdown
    file.  The progress bar is left out. *)
Fixpoint md_loop (md_filelist : list Path) (all_md_macros : gset string)
    : option (gset string) :=
  match md_filelist with
  | [] => Some all_md_macros
  | file :: files =>
      if String.eqb (suffix file) ".md" then
        let nb_macros := get_macros (get_nodelist (read_text file)) in
        md_loop files (all_md_macros ∪ nb_macros)
      else None
  end.

Definition process_md_files (md_filelist : list Path)
    : option (gset string) :=
  md_loop md_filelist ∅.

(** [nb_text += cell["source"]] over the cells. *)
Definition nb_text (file : Path) : string :=
  foldl (λ text source, text +:+ source) EmptyString (read_cells file).

Definition process_ipynb_files (ipynb_filelist : list Path) : gset string :=
  foldl (λ all_nb_macros file,
           all_nb_macros ∪ get_macros (get_nodelist (nb_text file)))
    ∅ ipynb_filelist.

(** The set that [main] builds from the two lists of files. *)
Definition all_macros_used (md_files ipynb_files : list Path)
    : option (gset string) :=
  md_macros ← process_md_files md_files;
  Some ((∅ ∪ md_macros) ∪ process_ipynb_files ipynb_files).
End Corpus.

(** ** What the scan is expected to give *)

(** The entries of the scanned folders, in the order of the scan. *)
Definition entries (fs : Path → DirEntry) (book_dir : Path)
    (unit_list : list string) : list Path :=
  flat_map (λ unit,
      match fs (joinpath book_dir unit) with
      | Directory names => joinpath (joinpath book_dir unit) <$> names
      | _ => []
      end) unit_list.

(** What the console shows for one entry: nothing for a markdown file or
    a notebook, a printed line for an entry without suffix, a warning for
    any other. *)
Definition notice (file : Path) : option Event :=
  if decide (suffix file = ".md") then None
  else if decide (suffix file = ".ipynb") then None
  else if decide (suffix file = EmptyString)
       then Some (PrintIgnoringHidden file)
       else Some (WarnNonHidden file).

(** What of the console is displayed: every printed line, and of the
    warnings the first about each file, since with the default filter a
    warning whose text was already issued from the same line is not
    shown again; [seen] holds the files already warned about. *)
Fixpoint shown (seen : list Path) (out : list Event) : list Event :=
  match out with
  | [] => []
  | PrintIgnoringHidden file :: out' =>
      PrintIgnoringHidden file :: shown seen out'
  | WarnNonHidden file :: out' =>
      if bool_decide (file ∈ seen) then shown seen out'
      else WarnNonHidden file :: shown (file :: seen) out'
  end.

(** A book of one folder with a markdown file, a notebook, a text file
    and a file without extension. *)
Definition book_fs (p : Path) : DirEntry :=
  if decide (p = ["book"; "unit1"])
  then Directory ["LICENSE"; "notes.txt"; "intro.md"; "lab.ipynb"]
  else Missing.

(** A book of one folder that holds a file without extension only. *)
Definition hidden_fs (p : Path) : DirEntry :=
  if decide (p = ["book"; "unit1"]) then Directory ["LICENSE"] else Missing.

(** ** The scenarios of the specification, as node lists *)

(** [\begin{align}\delta\end{align}] *)
Definition align_delta : list LatexNode :=
  [LatexEnvironmentNode "align" [LatexMacroNode "delta" []] []].

(** [\section{\gamma}]: the signature of [\section] is a star, an
    optional argument and a mandatory one. *)
Definition section_gamma : list LatexNode :=
  [LatexMacroNode "section"
     [None; None; Some (LatexGroupNode [LatexMacroNode "gamma" []])]].

(** [$\alpha + \beta$] *)
Definition alpha_plus_beta : list LatexNode :=
  [LatexMathNode "inline"
     [LatexMacroNode "alpha" []; LatexCharsNode "+ ";
      LatexMacroNode "beta" []]].

(** ** The run of the script *)

(** A node tree all of whose macro nodes the walk comes to: no macro node
    sits in a group or in an argument. *)
Fixpoint fully_walked (node : LatexNode) : bool :=
  match node with
  | LatexCharsNode _ | LatexSpecialsNode _ => true
  | LatexGroupNode nl => bool_decide (macro_names (LatexGroupNode nl) = [])
  | LatexMacroNode name args =>
      bool_decide (macro_names (LatexMacroNode name args) = [name])
  | LatexEnvironmentNode envname nl args =>
      forallb fully_walked nl
      && bool_decide (macro_names (LatexEnvironmentNode envname [] args) = [])
  | LatexMathNode _ nl => forallb fully_walked nl
  end.

(** A name as the tokenizer of [pylatexenc] forms it: after the
    backslash either a run of letters or one single character of any
    kind (none at the very end of the text).  So a name of more than one
    character holds no white space. *)
Definition macro_name_shape (s : string) : bool :=
  (String.length s <=? 1)
  || forallb (λ c, negb (py_isspace c)) (String.list_ascii_of_string s).

(** How [main] can fail: the assertion on the book directory, an
    exception of the scan, the assertion of [process_md_files], the
    exception of [open], [read] or [jupytext.read] on a file of the
    lists, the exception of [open] on the output file, the exception of
    [f.write]. *)
Inductive Failure : Type :=
  | BookDirNotFound (book_dir : Path)
  | ScanRaised (e : Exn)
  | NotMarkdown
  | ReadFailed (file : Path)
  | OpenFailed
  | WriteFailed.

(** How the write of the output file ends: with the text in place, with
    [open] raising, which leaves the file as it was, or with [f.write]
    raising after [open] has emptied the file, which then holds the part
    of the text that reached it. *)
Inductive WriteOutcome : Type :=
  | Written
  | OpenRefused
  | WriteBroken (reached : string).

(** [Path.home() / "bayes/6420-redo"] *)
Definition book_dir (home : Path) : Path :=
  joinpath (joinpath home "bayes") "6420-redo".

(** The folders [unit1] to [unit10] and [backmatter]. *)
Definition unit_list : list string :=
  ((λ x : nat, "unit" +:+ pretty x) <$> seq 1 10) ++ ["backmatter"].

(** The first failure of the loop of [process_md_files], which asserts
    the suffix of a file and then opens and reads it; [can_read] tells
    whether a file can be opened and read. *)
Fixpoint md_failure (can_read : Path → bool) (md_filelist : list Path)
    : option Failure :=
  match md_filelist with
  | [] => None
  | file :: files =>
      if negb (String.eqb (suffix file) ".md") then Some NotMarkdown
      else if negb (can_read file) then Some (ReadFailed file)
      else md_failure can_read files
  end.

(** The first failure of the loop of [process_ipynb_files]: a notebook
    that [jupytext.read] cannot read. *)
Fixpoint ipynb_failure (can_read : Path → bool) (ipynb_filelist : list Path)
    : option Failure :=
  match ipynb_filelist with
  | [] => None
  | file :: files =>
      if negb (can_read file) then Some (ReadFailed file)
      else ipynb_failure can_read files
  end.

Section Main.
Variable fs : Path → DirEntry.
Variable get_nodelist : string → list LatexNode.
Variable read_text : Path → string.
Variable read_cells : Path → list string.
Variable iter : gset string → list string.
(** Whether a file of the lists can be opened and read: as text by
    [open] and [read] for a markdown file, as a notebook by
    [jupytext.read]; a directory named like a markdown file cannot. *)
Variable can_read : Path → bool.
(** How the operating system answers the write of the output file. *)
Variable write_outcome : WriteOutcome.

(** [main], from the home directory and the files of the working
    directory to those files after the run and the failure, if any.  The
    console is left out. *)
Definition main (home : Path) (files : Files) : Files * option Failure :=
  match fs (book_dir home) with
  | Missing => (files, Some (BookDirNotFound (book_dir home)))
  | _ =>
      match get_content_filepaths fs (book_dir home) unit_list with
      | Raised e _ => (files, Some (ScanRaised e))
      | Returned (md_files, ipynb_files) _ =>
          match md_failure can_read md_files with
          | Some e => (files, Some e)
          | None =>
              match ipynb_failure can_read ipynb_files with
              | Some e => (files, Some e)
              | None =>
                  match all_macros_used get_nodelist read_text read_cells
                          md_files ipynb_files with
                  | None => (files, Some NotMarkdown)
                  | Some all_macros =>
                      match write_outcome with
                      | Written =>
                          (write_file iter (final_clean all_macros) files,
                           None)
                      | OpenRefused => (files, Some OpenFailed)
                      | WriteBroken reached =>
                          (<["macros_used.txt" := reached]> files,
                           Some WriteFailed)
                      end
                  end
              end
          end
      end
  end.
End Main.

(** ** [create_latex_reference.py]: reading the list, naming the output *)

Module Reference.

(** The lines the script prints. *)
Inductive Printed : Type :=
  | ApiKeyNotFound
  | Writing (filename : string).

(** [os.environ] is a map; a missing key is caught, reported and
    replaced by the empty string. *)
Definition load_api_key (environ : gmap string string)
    : string * list Printed :=
  match environ !! "CHATGPT_KEY" with
  | Some key => (key, [])
  | None => (EmptyString, [ApiKeyNotFound])
  end.

(** What a read in text mode returns for the stored text: with
    universal newlines, a carriage return, alone or before a newline,
    comes back as one newline. *)
Fixpoint universal_newlines (s : string) : string :=
  match s with
  | EmptyString => EmptyString
  | String c s' =>
      if Ascii.eqb c (ascii_of_nat 13) then
        match s' with
        | String c' s'' =>
            if Ascii.eqb c' newline
            then String newline (universal_newlines s'')
            else String newline (universal_newlines s')
        | EmptyString => String newline EmptyString
        end
      else String c (universal_newlines s')
  end.

(** [None] is the [FileNotFoundError] of [open]. *)
Definition load_macros (files : Files) : option string :=
  universal_newlines <$> files !! "macros_used.txt".

(** The fields of a [datetime] down to the second. *)
Record datetime : Type := mkDatetime {
  year : nat; month : nat; day : nat;
  hour : nat; minute : nat; second : nat
}.

Definition digit (n : nat) : ascii := ascii_of_nat (48 + n `mod` 10).

(** [%m], [%d], [%H], [%M]: two digits, zero padded. *)
Definition two_digits (n : nat) : string :=
  String (digit (n / 10)) (String (digit n) EmptyString).

(** [%Y]: the year with century, four digits. *)
Definition four_digits (n : nat) : string :=
  String (digit (n / 1000)) (String (digit (n / 100)) (two_digits n)).

(** [dt.strftime("%Y-%m-%d_%H-%M")] *)
Definition strftime (dt : datetime) : string :=
  four_digits (year dt) +:+ "-" +:+ two_digits (month dt) +:+ "-"
  +:+ two_digits (day dt) +:+ "_" +:+ two_digits (hour dt) +:+ "-"
  +:+ two_digits (minute dt).

Definition filename (model_type : string) (now : datetime) : string :=
  "latex_reference_" +:+ model_type +:+ "_" +:+ strftime now +:+ ".md".

(** [write_file(response, model_type)], with the clock's [now]. *)
Definition write_file (response model_type : string) (now : datetime)
    (files : Files) : Files * list Printed :=
  (<[filename model_type now := response]> files,
   [Writing (filename model_type now)]).

End Reference.

(** The ranges of the fields of a [datetime]. *)
Definition valid_datetime (dt : Reference.datetime) : Prop :=
  1 ≤ Reference.year dt < 100 * 100 ∧ 1 ≤ Reference.month dt ≤ 12
  ∧ 1 ≤ Reference.day dt ≤ 31 ∧ Reference.hour dt ≤ 23
  ∧ Reference.minute dt ≤ 59 ∧ Reference.second dt ≤ 59.

(** Two moments of the same minute. *)
Definition same_minute (dt1 dt2 : Reference.datetime) : Prop :=
  Reference.year dt1 = Reference.year dt2
  ∧ Reference.month dt1 = Reference.month dt2
  ∧ Reference.day dt1 = Reference.day dt2
  ∧ Reference.hour dt1 = Reference.hour dt2
  ∧ Reference.minute dt1 = Reference.minute dt2.

(** * Properties *)

(** ** The collector is the union of the contributions *)

Lemma walk_is_foldl (nl : list LatexNode) (acc : gset string) :
  (fix walk (l : list LatexNode) (acc : gset string) : gset string :=
     match l with
     | [] => acc
     | node' :: l' => walk l' (visit node' acc)
     end) nl acc
  = foldl (λ macros node, visit node macros) acc nl.
Proof. revert acc. induction nl as [|n nl IH]; intros acc; simpl; auto. Qed.

Lemma foldl_visit_union (nl : list LatexNode) :
  Forall (λ n, ∀ macros, visit n macros = macros ∪ contribution n) nl →
  ∀ acc, foldl (λ macros node, visit node macros) acc nl
         = acc ∪ ⋃ (contribution <$> nl).
Proof.
  induction 1 as [|n nl Hn _ IH]; intros acc; simpl.
  - set_solver.
  - rewrite IH, Hn. set_solver.
Qed.

Lemma visit_union (node : LatexNode) (macros : gset string) :
  visit node macros = macros ∪ contribution node.
Proof.
  revert macros.
  induction node as [c|nl IH|nm args IH|nm nl args IH IHa|c|d nl IH]
    using LatexNode_ind; intros macros; simpl; try set_solver.
  - rewrite walk_is_foldl, foldl_visit_union by assumption. set_solver.
  - rewrite walk_is_foldl, foldl_visit_union by assumption. set_solver.
Qed.

Lemma get_macros_union_list (node_list : list LatexNode) :
  get_macros node_list = ⋃ (contribution <$> node_list).
Proof.
  unfold get_macros. destruct node_list as [|n l]; [done|].
  rewrite foldl_visit_union; [set_solver|].
  apply Forall_forall. intros ? _ ?. apply visit_union.
Qed.

Lemma contribution_descend (node : LatexNode) (nl : list LatexNode) :
  has_nodelist node = true → nodelist node = Some nl →
  contribution node = get_macros nl.
Proof.
  destruct node; try discriminate; intros _ [= ->];
    by rewrite get_macros_union_list.
Qed.

(** One turn of the loop, as [get_macros] writes it. *)
Lemma visit_as_written (node : LatexNode) (macros : gset string) :
  visit node macros
  = if is_macro node then
      from_option (λ name, macros ∪ {[name]}) macros (macroname node)
    else if has_nodelist node then
      from_option (λ nl, macros ∪ get_macros nl) macros (nodelist node)
    else macros.
Proof.
  destruct node; try reflexivity;
    cbn [visit is_macro has_nodelist isNodeType class_of nodelist
         from_option bool_decide orb decide_rel];
    rewrite walk_is_foldl; simpl; unfold get_macros; by destruct nodelist0.
Qed.

(** The loop of [get_macros]. *)
Lemma get_macros_as_written (node_list : list LatexNode) :
  get_macros node_list
  = match node_list with
    | [] => ∅
    | _ =>
        foldl (λ macros node,
            if is_macro node then
              from_option (λ name, macros ∪ {[name]}) macros (macroname node)
            else if has_nodelist node then
              from_option (λ nl, macros ∪ get_macros nl) macros
                (nodelist node)
            else macros) ∅ node_list
    end.
Proof.
  unfold get_macros at 1. destruct node_list as [|n l]; [done|].
  generalize (∅ : gset string). generalize (n :: l). clear n l.
  intros l. induction l as [|n l IH]; intros acc; simpl; [done|].
  by rewrite visit_as_written, IH.
Qed.

Lemma get_macros_nil : get_macros [] = ∅.
Proof. reflexivity. Qed.

Lemma get_macros_cons (node : LatexNode) (rest : list LatexNode) :
  get_macros (node :: rest) = contribution node ∪ get_macros rest.
Proof. by rewrite !get_macros_union_list. Qed.

Lemma get_macros_app (l1 l2 : list LatexNode) :
  get_macros (l1 ++ l2) = get_macros l1 ∪ get_macros l2.
Proof. by rewrite !get_macros_union_list, fmap_app, union_list_app_L. Qed.

Lemma contribution_reached (node : LatexNode) :
  contribution node = list_to_set (reached_names node).
Proof.
  induction node as [c|nl IH|nm args IH|nm nl args IH IHa|c|d nl IH]
    using LatexNode_ind; simpl; try set_solver.
  - induction IH as [|n nl Hn _ IHnl]; simpl; [done|].
    rewrite list_to_set_app_L. set_solver.
  - induction IH as [|n nl Hn _ IHnl]; simpl; [done|].
    rewrite list_to_set_app_L. set_solver.
Qed.

Lemma get_macros_reached (node_list : list LatexNode) :
  get_macros node_list = list_to_set (all_reached_names node_list).
Proof.
  rewrite get_macros_union_list. unfold all_reached_names.
  induction node_list as [|n l IH]; [done|].
  rewrite fmap_cons, union_list_cons. cbn [flat_map].
  by rewrite list_to_set_app_L, IH, contribution_reached.
Qed.

(** Collecting from [$\alpha + \beta$]: the characters add nothing. *)
Example alpha_plus_beta_macros :
  get_macros alpha_plus_beta = {["alpha"; "beta"]}.
Proof. by vm_compute. Qed.

Lemma union_list_get_macros (node_lists : list (list LatexNode)) :
  ⋃ (get_macros <$> node_lists) = get_macros (concat node_lists).
Proof.
  induction node_lists as [|l ls IH]; [done|].
  rewrite fmap_cons, union_list_cons. cbn [concat].
  by rewrite get_macros_app, IH.
Qed.

(** ** Counting the macro nodes *)

Lemma reached_sublist_macro_names (node : LatexNode) :
  reached_names node `sublist_of` macro_names node.
Proof.
  induction node as [c|nl IH|nm args IH|nm nl args IH IHa|c|d nl IH]
    using LatexNode_ind; simpl; try apply sublist_nil_l.
  - apply sublist_skip, sublist_nil_l.
  - apply sublist_inserts_r.
    induction IH as [|n nl Hn _ IHnl]; [done|]. by apply sublist_app.
  - induction IH as [|n nl Hn _ IHnl]; [done|]. by apply sublist_app.
Qed.

Lemma all_reached_sublist (node_list : list LatexNode) :
  all_reached_names node_list `sublist_of` all_macro_names node_list.
Proof.
  induction node_list as [|n l IH]; [done|]. cbn [all_reached_names
    all_macro_names flat_map].
  apply sublist_app; [apply reached_sublist_macro_names | exact IH].
Qed.

Lemma remove_dups_sublist (l : list string) : remove_dups l `sublist_of` l.
Proof.
  induction l as [|x l IH]; simpl; [done|].
  destruct (decide_rel _ _ _); by constructor.
Qed.

Lemma size_list_to_set_distinct (l : list string) :
  size (list_to_set l : gset string) = length (remove_dups l).
Proof.
  rewrite <- (size_list_to_set (C:=gset string) (remove_dups l))
    by apply NoDup_remove_dups.
  f_equal. apply set_eq. intros x.
  by rewrite !elem_of_list_to_set, elem_of_remove_dups.
Qed.

(** ** Aggregation over the files *)

Lemma md_loop_spec (get_nodelist : string → list LatexNode)
    (read_text : Path → string) (md_filelist : list Path)
    (acc : gset string) :
  md_loop get_nodelist read_text md_filelist acc
  = if forallb (λ file, String.eqb (suffix file) ".md") md_filelist
    then Some (acc ∪ ⋃ (get_macros <$>
                 ((λ file, get_nodelist (read_text file)) <$> md_filelist)))
    else None.
Proof.
  revert acc. induction md_filelist as [|f fs IH]; intros acc; simpl.
  - f_equal. set_solver.
  - destruct (String.eqb (suffix f) ".md"); simpl; [|done].
    rewrite IH. destruct (forallb _ fs); [|done]. f_equal. set_solver.
Qed.

Lemma process_ipynb_files_spec (get_nodelist : string → list LatexNode)
    (read_cells : Path → list string) (ipynb_filelist : list Path) :
  process_ipynb_files get_nodelist read_cells ipynb_filelist
  = ⋃ (get_macros <$>
         ((λ file, get_nodelist (nb_text read_cells file))
            <$> ipynb_filelist)).
Proof.
  unfold process_ipynb_files.
  enough (∀ acc, foldl (λ all_nb_macros file,
              all_nb_macros
              ∪ get_macros (get_nodelist (nb_text read_cells file)))
            acc ipynb_filelist
          = acc ∪ ⋃ (get_macros <$>
               ((λ file, get_nodelist (nb_text read_cells file))
                  <$> ipynb_filelist))) as H.
  { rewrite H. set_solver. }
  induction ipynb_filelist as [|f fs IH]; intros acc; simpl.
  - set_solver.
  - rewrite IH. set_solver.
Qed.

(** ** The macro collector: the claims *)

(** C1, as the code has it: for an environment node the collector descends
    into the body and nothing else.  The environment's own name is not
    recorded: the macros collected from a list holding the node are those
    of the nodes before it, of its body and of the nodes after it, so the
    name is in the result only if a macro node met elsewhere carries it.
    Collecting from [\begin{align}\delta\end{align}] yields exactly
    [{"delta"}]. *)
Theorem environment_contributes_its_body :
  (∀ (envname : string) (body : list LatexNode)
     (args : list (option LatexNode)) (before after : list LatexNode),
     get_macros (before ++ LatexEnvironmentNode envname body args :: after)
     = get_macros before ∪ get_macros body ∪ get_macros after)
  ∧ (∀ envname body args,
       get_macros [LatexEnvironmentNode envname body args] = get_macros body)
  ∧ get_macros align_delta = {["delta"]}.
Proof.
  split; [|split].
  - intros. rewrite get_macros_app, get_macros_cons. simpl.
    rewrite <- get_macros_union_list. set_solver.
  - intros. rewrite get_macros_cons, get_macros_nil. simpl.
    rewrite <- get_macros_union_list. set_solver.
  - by vm_compute.
Qed.

(** C1, as stated, fails: on [\begin{align}\delta\end{align}] the name
    [align] is not in the collected set, which is not
    [{"align", "delta"}]. *)
Lemma environment_name_not_recorded :
  ("align" ∉ get_macros align_delta)
  ∧ get_macros align_delta ≠ {["align"; "delta"]}.
Proof.
  assert (get_macros align_delta = {["delta"]}) as -> by (by vm_compute).
  split; [set_solver|].
  intros H. assert ("align" ∈ ({["delta"]} : gset string)) as Hin
    by (rewrite H; set_solver).
  set_solver.
Qed.

(** C2: [get_macros] returns exactly the set of the reference definition:
    the empty set for the empty list, and otherwise the union of the
    contributions of the nodes, a macro node contributing its name, a math
    or environment node the macros collected from its child list, and any
    other node nothing. *)
Theorem get_macros_is_reference (node_list : list LatexNode) :
  get_macros node_list = get_macros_reference node_list.
Proof.
  rewrite get_macros_union_list. by destruct node_list.
Qed.

(** C5: for a macro node the collector records the name and does not
    look at the arguments: whatever the arguments hold, the node adds its
    name and nothing else.  Collecting from [\section{\gamma}] yields
    exactly [{"section"}]; [gamma], the name of a macro node of the
    argument, is not collected. *)
Theorem macro_arguments_not_descended :
  (∀ (name : string) (args : list (option LatexNode))
     (before after : list LatexNode),
     get_macros (before ++ LatexMacroNode name args :: after)
     = get_macros before ∪ {[name]} ∪ get_macros after)
  ∧ (∀ name args, get_macros [LatexMacroNode name args] = {[name]})
  ∧ get_macros section_gamma = {["section"]}
  ∧ ("gamma" ∈ all_macro_names section_gamma)
  ∧ ("gamma" ∉ get_macros section_gamma).
Proof.
  split; [|split; [|split; [|split]]].
  - intros. rewrite get_macros_app, get_macros_cons. simpl. set_solver.
  - intros. rewrite get_macros_cons, get_macros_nil. simpl. set_solver.
  - by vm_compute.
  - vm_compute. set_solver.
  - assert (get_macros section_gamma = {["section"]}) as ->
      by (by vm_compute).
    set_solver.
Qed.

(** C7: collecting from a concatenation is the union of the collections;
    hence the union of the sets of the files is the set collected from the
    concatenation of their node lists, and that is the set [main] builds
    from the markdown files and the notebooks. *)
Theorem get_macros_concatenation :
  (∀ l1 l2 : list LatexNode,
     get_macros (l1 ++ l2) = get_macros l1 ∪ get_macros l2)
  ∧ (∀ node_lists : list (list LatexNode),
       ⋃ (get_macros <$> node_lists) = get_macros (concat node_lists))
  ∧ (∀ (get_nodelist : string → list LatexNode) (read_text : Path → string)
       (read_cells : Path → list string) (md_files ipynb_files : list Path),
       all_macros_used get_nodelist read_text read_cells md_files ipynb_files
       = if forallb (λ file, String.eqb (suffix file) ".md") md_files
         then Some (get_macros (concat
                (((λ file, get_nodelist (read_text file)) <$> md_files)
                 ++ ((λ file, get_nodelist (nb_text read_cells file))
                       <$> ipynb_files))))
         else None).
Proof.
  split; [exact get_macros_app|]. split; [exact union_list_get_macros|].
  intros. unfold all_macros_used, process_md_files.
  rewrite md_loop_spec. destruct (forallb _ md_files); [|done]. simpl.
  rewrite process_ipynb_files_spec, concat_app, get_macros_app.
  rewrite <- !union_list_get_macros. f_equal. set_solver.
Qed.

(** C4, as the code has it: the size of the collected set is at most the
    number [k] of macro nodes of the tree, and it equals the number of
    distinct names among the macro nodes that the walk reaches, those of
    the list itself and of the child lists of math and environment nodes
    at any depth; the macro nodes inside groups and inside arguments are
    not counted. *)
Theorem collected_size (node_list : list LatexNode) :
  size (get_macros node_list) ≤ length (all_macro_names node_list)
  ∧ size (get_macros node_list)
    = length (remove_dups (all_reached_names node_list))
  ∧ all_reached_names node_list `sublist_of` all_macro_names node_list.
Proof.
  rewrite get_macros_reached, size_list_to_set_distinct.
  split; [|split; [done|apply all_reached_sublist]].
  etrans; [apply sublist_length, remove_dups_sublist|].
  apply sublist_length, all_reached_sublist.
Qed.

(** C4, as stated, fails: [\section{\gamma}] holds two macro nodes with
    two distinct names, and the collected set has one element. *)
Lemma collected_size_not_distinct_count :
  all_macro_names section_gamma = ["section"; "gamma"]
  ∧ size (get_macros section_gamma) = 1
  ∧ size (get_macros section_gamma)
    ≠ length (remove_dups (all_macro_names section_gamma)).
Proof. by vm_compute. Qed.

(** ** Termination of the walk *)

Lemma node_size_math (displaytype : string) (nl : list LatexNode) :
  node_size (LatexMathNode displaytype nl) = S (list_size nl).
Proof. reflexivity. Qed.

Lemma node_size_group (nl : list LatexNode) :
  node_size (LatexGroupNode nl) = S (list_size nl).
Proof. exact (node_size_math EmptyString nl). Qed.

Lemma node_size_environment (envname : string) (nl : list LatexNode)
    (args : list (option LatexNode)) :
  S (list_size nl) ≤ node_size (LatexEnvironmentNode envname nl args).
Proof.
  pose proof (node_size_math EmptyString nl) as H. simpl in *. lia.
Qed.

Lemma node_depth_math (displaytype : string) (nl : list LatexNode) :
  node_depth (LatexMathNode displaytype nl) = S (list_depth nl).
Proof. reflexivity. Qed.

Lemma node_depth_environment (envname : string) (nl : list LatexNode)
    (args : list (option LatexNode)) :
  node_depth (LatexEnvironmentNode envname nl args) = S (list_depth nl).
Proof. exact (node_depth_math EmptyString nl). Qed.

Lemma node_size_le_list_size (node : LatexNode) (node_list : list LatexNode) :
  node ∈ node_list → node_size node ≤ list_size node_list.
Proof.
  induction 1 as [n l|n m l _ IH]; unfold list_size in *; simpl; lia.
Qed.

Lemma node_depth_le_list_depth (node : LatexNode)
    (node_list : list LatexNode) :
  node ∈ node_list → node_depth node ≤ list_depth node_list.
Proof.
  induction 1 as [n l|n m l _ IH]; unfold list_depth in *; simpl; lia.
Qed.

Lemma child_list_smaller (node : LatexNode) (nl : list LatexNode) :
  nodelist node = Some nl →
  list_size nl < node_size node
  ∧ (has_nodelist node = true → node_depth node = S (list_depth nl)).
Proof.
  destruct node; try discriminate; intros [= ->].
  - rewrite node_size_group. split; [lia|done].
  - pose proof (node_size_environment environmentname nl nodeargd).
    rewrite node_depth_environment. split; [lia|done].
  - rewrite node_size_math, node_depth_math. split; [lia|done].
Qed.

(** One turn of the loop on a node that is not descended into: the node
    adds its own names, and the function called for the recursion is not
    used. *)
Lemma loop_body_direct (node : LatexNode) :
  has_nodelist node = false →
  ∀ self macros, loop_body self macros node = Some (macros ∪ contribution node).
Proof.
  destruct node; try discriminate; intros _ self macros;
    unfold loop_body; simpl; f_equal; set_solver.
Qed.

(** One turn of the loop on a math or environment node: one call, on the
    child list. *)
Lemma loop_body_descend (node : LatexNode) :
  has_nodelist node = true →
  ∃ nl, nodelist node = Some nl
        ∧ ∀ self macros,
            loop_body self macros node = sub ← self nl; Some (macros ∪ sub).
Proof.
  destruct node; try discriminate; intros _; eexists; (split; [done|]);
    intros; reflexivity.
Qed.

Lemma for_loop_enough (fuel : nat) (node_list : list LatexNode) :
  (∀ nl, list_depth nl < fuel →
         get_macros_fuel fuel nl = Some (get_macros nl)) →
  Forall (λ node, node_depth node ≤ fuel) node_list →
  ∀ acc, for_loop (loop_body (get_macros_fuel fuel)) acc node_list
         = Some (foldl (λ macros node, visit node macros) acc node_list).
Proof.
  intros Hself. induction 1 as [|n l Hn _ IH]; intros acc; simpl; [done|].
  destruct (has_nodelist n) eqn:Hd.
  - destruct (loop_body_descend n Hd) as (nl & Hnl & ->).
    destruct (child_list_smaller n nl Hnl) as [_ Hdepth].
    rewrite Hself by (rewrite Hdepth in Hn by done; lia). simpl.
    rewrite IH, visit_union. by rewrite (contribution_descend n nl).
  - rewrite loop_body_direct by done. simpl. by rewrite IH, visit_union.
Qed.

Lemma get_macros_fuel_enough (fuel : nat) (node_list : list LatexNode) :
  list_depth node_list < fuel →
  get_macros_fuel fuel node_list = Some (get_macros node_list).
Proof.
  revert node_list. induction fuel as [|fuel IH]; intros l Hl; [lia|].
  destruct l as [|n l]; [done|].
  change (get_macros_fuel (S fuel) (n :: l))
    with (for_loop (loop_body (get_macros_fuel fuel)) ∅ (n :: l)).
  apply for_loop_enough; [exact IH|].
  apply Forall_forall. intros m Hm.
  apply node_depth_le_list_depth in Hm. lia.
Qed.

Lemma for_loop_raises {A S : Type} (body : S → A → option S) (x : A)
    (l : list A) :
  x ∈ l → (∀ s, body s x = None) → ∀ s, for_loop body s l = None.
Proof.
  intros Hx Hbody. induction Hx as [x l|x y l _ IH]; intros s; simpl.
  - by rewrite Hbody.
  - destruct (body s y); simpl; auto.
Qed.

Lemma list_depth_attained (node_list : list LatexNode) :
  node_list ≠ [] →
  ∃ node, node ∈ node_list ∧ node_depth node = list_depth node_list.
Proof.
  induction node_list as [|n l IH]; [done|]. intros _.
  destruct l as [|m l].
  - exists n. split; [left|]. unfold list_depth. simpl. lia.
  - destruct IH as (k & Hk & Hd); [done|].
    destruct (decide (node_depth n ≤ list_depth (m :: l))).
    + exists k. split; [by right|]. rewrite Hd.
      change (list_depth (n :: m :: l))
        with (node_depth n `max` list_depth (m :: l)). lia.
    + exists n. split; [left|].
      change (list_depth (n :: m :: l))
        with (node_depth n `max` list_depth (m :: l)). lia.
Qed.

(** With too little stack the call raises. *)
Lemma get_macros_fuel_short (fuel : nat) (node_list : list LatexNode) :
  fuel ≤ list_depth node_list → get_macros_fuel fuel node_list = None.
Proof.
  revert node_list. induction fuel as [|fuel IH]; intros l Hl; [done|].
  destruct l as [|n l]; [unfold list_depth in Hl; simpl in Hl; lia|].
  change (get_macros_fuel (S fuel) (n :: l))
    with (for_loop (loop_body (get_macros_fuel fuel)) ∅ (n :: l)).
  destruct (list_depth_attained (n :: l)) as (k & Hk & Hd); [done|].
  apply (for_loop_raises _ k); [done|]. intros s.
  destruct (has_nodelist k) eqn:Hdesc.
  - destruct (loop_body_descend k Hdesc) as (nl & Hnl & ->).
    destruct (child_list_smaller k nl Hnl) as [_ Hdepth].
    rewrite IH; [done|]. rewrite Hdepth in Hd by done. lia.
  - destruct k; try discriminate; cbn [node_depth] in Hd; lia.
Qed.

(** C8: [get_macros] terminates on every node tree.  Run with a call
    stack deeper than the nesting of math and environment nodes, the
    function as written returns, and it returns the set of the walk.
    Each turn of its loop either adds names directly, without a recursive
    call, or makes one recursive call, on the child list of the node,
    which is strictly smaller than the list at hand. *)
Theorem get_macros_terminates (fuel : nat) (node_list : list LatexNode) :
  list_depth node_list < fuel →
  get_macros_fuel fuel node_list = Some (get_macros node_list)
  ∧ Forall (λ node,
      if has_nodelist node
      then ∃ nl, nodelist node = Some nl
             ∧ list_size nl < node_size node ≤ list_size node_list
             ∧ ∀ self macros,
                 loop_body self macros node
                 = sub ← self nl; Some (macros ∪ sub)
      else ∃ names : gset string, ∀ self macros,
             loop_body self macros node = Some (macros ∪ names))
      node_list.
Proof.
  intros Hfuel. split; [by apply get_macros_fuel_enough|].
  apply Forall_forall. intros node Hnode.
  destruct (has_nodelist node) eqn:Hd.
  - destruct (loop_body_descend node Hd) as (nl & Hnl & Hbody).
    exists nl. split; [done|]. split; [|done].
    split; [by apply child_list_smaller|by apply node_size_le_list_size].
  - exists (contribution node). by apply loop_body_direct.
Qed.

Lemma get_macros_terminates_witness :
  list_depth align_delta < 2
  ∧ get_macros_fuel 2 align_delta = Some (get_macros align_delta).
Proof.
  assert (list_depth align_delta < 2) as H by (vm_compute; lia).
  split; [exact H|].
  exact (proj1 (get_macros_terminates 2 align_delta H)).
Defined.

(** ** Python strings: facts *)

Lemma truthy_true (s : string) : truthy s = true ↔ s ≠ EmptyString.
Proof. by destruct s. Qed.

Lemma py_in_elem_of (x : string) (l : list string) :
  py_in x l = true ↔ x ∈ l.
Proof.
  unfold py_in. rewrite existsb_exists. split.
  - intros (y & Hy & Heq). apply String.eqb_eq in Heq as ->.
    by apply list_elem_of_In.
  - intros H. exists x. split; [by apply list_elem_of_In|].
    apply String.eqb_refl.
Qed.

Lemma rstrip_empty (s : string) :
  rstrip s = EmptyString ↔ ∀ c, c ∈ String.list_ascii_of_string s → py_isspace c = true.
Proof.
  induction s as [|a s IH]; simpl.
  - split; [|done]. intros _ c Hc. by apply elem_of_nil in Hc.
  - destruct (rstrip s) eqn:Hr.
    + destruct (py_isspace a) eqn:Ha.
      * split; [|done]. intros _ c [->|Hc]%elem_of_cons; [done|].
        by apply IH.
      * split; [done|]. intros H. specialize (H a).
        rewrite Ha in H. discriminate H. left.
    + split; [done|]. intros H.
      assert (String a0 s0 = EmptyString) as Hempty; [|done].
      apply IH. intros c Hc. apply H. by right.
Qed.

Lemma lstrip_empty (s : string) :
  rstrip (lstrip s) = EmptyString
  ↔ ∀ c, c ∈ String.list_ascii_of_string s → py_isspace c = true.
Proof.
  induction s as [|a s IH]; simpl.
  - split; [|done]. intros _ c Hc. by apply elem_of_nil in Hc.
  - destruct (py_isspace a) eqn:Ha.
    + rewrite IH. split.
      * intros H c [->|Hc]%elem_of_cons; auto.
      * intros H c Hc. apply H. by right.
    + rewrite (rstrip_empty (String a s)). simpl. done.
Qed.

(** [s.strip()] is empty exactly when [s] holds white space only. *)
Lemma strip_empty (s : string) :
  strip s = EmptyString
  ↔ ∀ c, c ∈ String.list_ascii_of_string s → py_isspace c = true.
Proof. apply lstrip_empty. Qed.

Lemma strip_nonempty (s : string) :
  strip s ≠ EmptyString → s ≠ EmptyString.
Proof. intros H ->. by apply H. Qed.

(** ** The set cleaner: the claims *)

Lemma keeps_spec (item : string) :
  keeps item = true ↔ strip item ≠ EmptyString ∧ item ∉ problem_list.
Proof.
  unfold keeps. rewrite andb_true_iff, negb_true_iff, truthy_true.
  rewrite <- py_in_elem_of.
  destruct (py_in item problem_list); intuition congruence.
Qed.

Lemma elem_of_final_clean (macros : gset string) (item : string) :
  item ∈ final_clean macros
  ↔ item ∈ macros ∧ strip item ≠ EmptyString ∧ item ∉ problem_list.
Proof.
  unfold final_clean. rewrite elem_of_filter, keeps_spec. tauto.
Qed.

Lemma not_in_problem_list (item : string) :
  item ∉ problem_list
  ↔ item ≠ "{" ∧ item ≠ "}" ∧ item ≠ "t" ∧ item ≠ "n" ∧ item ≠ "&"
    ∧ item ≠ backslash.
Proof.
  unfold problem_list. rewrite !not_elem_of_cons.
  pose proof (not_elem_of_nil item). tauto.
Qed.

(** C6: [final_clean] returns exactly the elements that are not empty
    once stripped of surrounding white space and that are none of the six
    tokens of the deny list; the match is on the whole string, so a name
    that merely starts with or contains a token stays.  Cleaning
    [{"alpha", "{", "", "n", "beta"}] yields [{"alpha", "beta"}]. *)
Theorem final_clean_exact :
  (∀ (macros : gset string) (item : string),
     item ∈ final_clean macros
     ↔ item ∈ macros ∧ strip item ≠ EmptyString
       ∧ item ≠ "{" ∧ item ≠ "}" ∧ item ≠ "t" ∧ item ≠ "n" ∧ item ≠ "&"
       ∧ item ≠ backslash)
  ∧ final_clean {["alpha"; "{"; ""; "n"; "beta"]} = {["alpha"; "beta"]}
  ∧ final_clean {["tt"; "nu"; "{x"; "a&b"]} = {["tt"; "nu"; "{x"; "a&b"]}.
Proof.
  split; [|split; by vm_compute].
  intros. by rewrite elem_of_final_clean, not_in_problem_list.
Qed.

(** C3, as the code has it: [final_clean] is idempotent, and it never
    removes a string that is not empty once stripped of surrounding white
    space and that is absent from the deny list. *)
Theorem final_clean_idempotent (macros : gset string) :
  final_clean (final_clean macros) = final_clean macros
  ∧ ∀ item, item ∈ macros → strip item ≠ EmptyString →
            item ∉ problem_list → item ∈ final_clean macros.
Proof.
  split.
  - apply set_eq. intros item. rewrite !elem_of_final_clean. tauto.
  - intros item ? ? ?. by apply elem_of_final_clean.
Qed.

Lemma final_clean_idempotent_witness :
  "alpha" ∈ final_clean {["alpha"; " "]}.
Proof.
  apply (proj2 (final_clean_idempotent {["alpha"; " "]}) "alpha").
  - apply elem_of_union_l, elem_of_singleton. reflexivity.
  - vm_compute. discriminate.
  - apply not_in_problem_list. repeat split; discriminate.
Defined.

(** C3, as stated, fails: the string of one space is not empty and is
    absent from the deny list, and [final_clean] removes it. *)
Lemma final_clean_removes_blank :
  (" " ∈ ({[" "]} : gset string)) ∧ " " ≠ EmptyString
  ∧ (" " ∉ problem_list) ∧ (" " ∉ final_clean {[" "]}).
Proof.
  split; [set_solver|]. split; [done|]. split.
  - apply not_in_problem_list. repeat split; discriminate.
  - rewrite elem_of_final_clean. intros (_ & H & _). by apply H.
Qed.

(** ** Persistence: joining and splitting *)

Lemma split_without (c : ascii) (s : string) :
  contains c s = false → split c s = [s].
Proof.
  induction s as [|a s IH]; simpl; [done|].
  destruct (Ascii.eqb a c); simpl; [done|]. intros H. by rewrite IH.
Qed.

Lemma split_append (c : ascii) (s r : string) :
  contains c s = false →
  split c (s +:+ String c r) = s :: split c r.
Proof.
  induction s as [|a s IH]; simpl.
  - intros _. by rewrite Ascii.eqb_refl.
  - destruct (Ascii.eqb a c); simpl; [done|]. intros H. by rewrite IH.
Qed.

Lemma split_join (c : ascii) (items : list string) :
  items ≠ [] → Forall (λ x, contains c x = false) items →
  split c (join (String c EmptyString) items) = items.
Proof.
  intros Hne Hall. induction Hall as [|x l Hx Hl IH]; [done|].
  destruct l as [|y l]; simpl.
  - by apply split_without.
  - change (split c (x +:+ String c (join (String c EmptyString) (y :: l)))
            = x :: y :: l).
    rewrite split_append by done. f_equal. by apply IH.
Qed.

Lemma endswith_append (c : ascii) (s r : string) :
  r ≠ EmptyString → endswith c (s +:+ r) = endswith c r.
Proof.
  intros Hr. induction s as [|a s IH]; simpl; [done|].
  destruct (s +:+ r) eqn:Hsr; [|done].
  destruct s; simpl in Hsr; [done|discriminate].
Qed.

Lemma endswith_contains (c : ascii) (s : string) :
  endswith c s = true → contains c s = true.
Proof.
  induction s as [|a s IH]; simpl; [done|].
  destruct s as [|b s]; [by rewrite orb_false_r|].
  intros H. rewrite IH by done. apply orb_true_r.
Qed.

Lemma join_nonempty (sep : string) (items : list string) :
  items ≠ [] → Forall (λ x, x ≠ EmptyString) items →
  join sep items ≠ EmptyString.
Proof.
  intros Hne Hall. destruct Hall as [|x l Hx Hl]; [done|].
  simpl. destruct l; [done|]. by destruct x.
Qed.

Lemma endswith_join (c : ascii) (items : list string) :
  Forall (λ x, x ≠ EmptyString ∧ contains c x = false) items →
  endswith c (join (String c EmptyString) items) = false.
Proof.
  induction 1 as [|x l [Hx Hc] Hl IH]; [done|].
  destruct l as [|y l].
  - simpl. destruct (endswith c x) eqn:He; [|done].
    apply endswith_contains in He. congruence.
  - assert (join (String c EmptyString) (y :: l) ≠ EmptyString) as Hj.
    { apply join_nonempty; [done|]. eapply Forall_impl; [exact Hl|].
      by intros ? [? _]. }
    change (join (String c EmptyString) (x :: y :: l))
      with (x +:+ String c (join (String c EmptyString) (y :: l))).
    rewrite endswith_append by done.
    revert IH Hj. generalize (join (String c EmptyString) (y :: l)) as j.
    intros j IH Hj. simpl. by destruct j.
Qed.

(** The text of a set whose names are not empty and hold no newline
    character: it does not end with a newline character, and its lines
    are the names. *)
Lemma written_text_lines (iter : gset string → list string)
    (macros : gset string) (files : Files) :
  iter macros ≡ₚ elements macros →
  (∀ m, m ∈ macros → m ≠ EmptyString ∧ contains newline m = false) →
  write_file iter macros files !! "macros_used.txt"
  = Some (join (String newline EmptyString) (iter macros))
  ∧ endswith newline (written_text iter macros) = false
  ∧ (macros ≠ ∅ →
     split newline (written_text iter macros) = iter macros
     ∧ length (split newline (written_text iter macros)) = size macros)
  ∧ (macros = ∅ → written_text iter macros = EmptyString).
Proof.
  intros Hiter Hnames.
  assert (Forall (λ x, x ≠ EmptyString ∧ contains newline x = false)
            (iter macros)) as Hall.
  { apply Forall_forall. intros x Hx. apply Hnames.
    rewrite Hiter in Hx. by apply elem_of_elements in Hx. }
  split; [apply lookup_insert_eq|]. split; [by apply endswith_join|].
  split.
  - intros Hne.
    assert (split newline (written_text iter macros) = iter macros) as Hs.
    { apply split_join.
      - intros Hnil. apply Hne. apply leibniz_equiv, elements_empty_iff.
        apply Permutation_nil_r. by rewrite <- Hiter, Hnil.
      - eapply Forall_impl; [exact Hall|]. by intros ? [_ ?]. }
    split; [exact Hs|]. rewrite Hs, Hiter. reflexivity.
  - intros ->. unfold written_text.
    rewrite elements_empty in Hiter. apply Permutation_nil_r in Hiter.
    by rewrite Hiter.
Qed.

(** Outside such sets the lines are not the names: the name made of a
    newline character alone gives a text of two lines. *)
Lemma written_text_newline_name :
  endswith newline (written_text elements {[String newline EmptyString]})
  = true
  ∧ length (split newline
              (written_text elements {[String newline EmptyString]})) = 2
  ∧ size ({[String newline EmptyString]} : gset string) = 1.
Proof. by vm_compute. Qed.

Lemma contains_elem_of (c : ascii) (s : string) :
  contains c s = true → c ∈ String.list_ascii_of_string s.
Proof.
  induction s as [|a s IH]; simpl; [done|].
  intros [Ha|Hs]%orb_true_iff.
  - apply Ascii.eqb_eq in Ha as ->. left.
  - right. by apply IH.
Qed.

(** What the cleaning leaves of the names of the tokenizer: names that
    are not empty and hold no newline character. *)
Lemma kept_name_one_line (m : string) :
  macro_name_shape m = true → keeps m = true →
  m ≠ EmptyString ∧ contains newline m = false.
Proof.
  intros Hshape [Hstrip _]%keeps_spec.
  split; [by apply strip_nonempty|].
  destruct (contains newline m) eqn:Hc; [|done]. exfalso.
  apply orb_true_iff in Hshape as [Hlen|Hall].
  - destruct m as [|c [|c' m]]; [done| |done].
    simpl in Hc. rewrite orb_false_r in Hc.
    apply Ascii.eqb_eq in Hc as ->. by apply Hstrip.
  - apply contains_elem_of in Hc.
    rewrite forallb_forall in Hall.
    apply list_elem_of_In, Hall in Hc. by vm_compute in Hc.
Qed.

(** C10: [write_file] replaces the text of [macros_used.txt] by the
    names joined by single newline characters, in the order of the
    iteration over the set.  For every set that the step receives, the
    cleaned set of names formed by the tokenizer, that text does not end
    with a newline character, and for a nonempty set its lines are the
    names, as many lines as names; for the empty set the text is the
    empty string. *)
Theorem write_file_cleaned_lines (iter : gset string → list string)
    (raw : gset string) (files : Files) :
  iter (final_clean raw) ≡ₚ elements (final_clean raw) →
  (∀ m, m ∈ raw → macro_name_shape m = true) →
  write_file iter (final_clean raw) files !! "macros_used.txt"
  = Some (join (String newline EmptyString) (iter (final_clean raw)))
  ∧ endswith newline (written_text iter (final_clean raw)) = false
  ∧ (final_clean raw ≠ ∅ →
     split newline (written_text iter (final_clean raw))
     = iter (final_clean raw)
     ∧ length (split newline (written_text iter (final_clean raw)))
       = size (final_clean raw))
  ∧ (final_clean raw = ∅ →
     written_text iter (final_clean raw) = EmptyString).
Proof.
  intros Hiter Hshape. apply written_text_lines; [done|].
  intros m Hm. unfold final_clean in Hm. apply elem_of_filter in Hm as [Hk Hm].
  apply kept_name_one_line; [by apply Hshape|done].
Qed.

Lemma write_file_cleaned_lines_witness :
  endswith newline
    (written_text elements
       (final_clean {["alpha"; String newline EmptyString; "beta"]}))
  = false.
Proof.
  apply (write_file_cleaned_lines elements
           {["alpha"; String newline EmptyString; "beta"]} ∅).
  - reflexivity.
  - intros m Hm. apply elem_of_union in Hm. destruct Hm as [Hm|Hm];
      [apply elem_of_union in Hm; destruct Hm as [Hm|Hm]|];
      apply elem_of_singleton in Hm; rewrite Hm; vm_compute; reflexivity.
Defined.

(** ** The scan of the folders *)

Lemma classify_spec (st : Scan) (file : Path) :
  classify st file
  = mkScan
      (all_md_filepaths st ++ filter (λ f, suffix f = ".md") [file])
      (all_ipynb_filepaths st ++ filter (λ f, suffix f = ".ipynb") [file])
      (console st ++ omap notice [file]).
Proof.
  unfold classify. rewrite !filter_cons, !filter_nil.
  cbn [omap list_omap]. unfold notice.
  destruct (String.eqb_spec (suffix file) ".md") as [Hmd|Hmd];
    destruct (String.eqb_spec (suffix file) ".ipynb") as [Hnb|Hnb];
    destruct (truthy (suffix file)) eqn:Ht;
    repeat case_decide; simpl; rewrite ?app_nil_r; try done;
    try congruence.
  all: destruct (suffix file); simpl in *; congruence.
Qed.

Lemma foldl_classify (files : list Path) (st : Scan) :
  foldl classify st files
  = mkScan
      (all_md_filepaths st ++ filter (λ f, suffix f = ".md") files)
      (all_ipynb_filepaths st ++ filter (λ f, suffix f = ".ipynb") files)
      (console st ++ omap notice files).
Proof.
  revert st. induction files as [|f files IH]; intros st.
  - simpl. rewrite !app_nil_r. by destruct st.
  - cbn [foldl]. rewrite IH, classify_spec.
    cbn [all_md_filepaths all_ipynb_filepaths console].
    change (f :: files) with ([f] ++ files).
    by rewrite !filter_app, omap_app, !app_assoc.
Qed.

Lemma scan_units_spec (fs : Path → DirEntry) (book_dir : Path)
    (unit_list : list string) (st : Scan) :
  Forall (λ unit, ∃ names, fs (joinpath book_dir unit) = Directory names)
    unit_list →
  scan_units fs book_dir unit_list st
  = Returned
      (all_md_filepaths st
         ++ filter (λ f, suffix f = ".md") (entries fs book_dir unit_list),
       all_ipynb_filepaths st
         ++ filter (λ f, suffix f = ".ipynb")
              (entries fs book_dir unit_list))
      (console st ++ omap notice (entries fs book_dir unit_list)).
Proof.
  intros Hall. revert st.
  induction Hall as [|unit units [names Hnames] _ IH]; intros st.
  - simpl. by rewrite !app_nil_r.
  - cbn [scan_units entries flat_map]. rewrite Hnames, IH, foldl_classify.
    cbn [all_md_filepaths all_ipynb_filepaths console].
    fold (entries fs book_dir units).
    by rewrite !filter_app, omap_app, <- !app_assoc.
Qed.

(** C9, as the code has it: when every scanned folder is a directory, the
    scan returns, without raising, the entries with the suffix [.md] in
    the markdown list and those with the suffix [.ipynb] in the notebook
    list, in the order of the scan.  An entry without suffix is left out
    of both lists and a line saying so is printed; an entry with any
    other suffix is left out of both lists with a warning.  Neither stops
    the scan: the markdown files and notebooks beside them are in the
    lists. *)
Theorem get_content_filepaths_classifies (fs : Path → DirEntry)
    (book_dir : Path) (unit_list : list string) :
  Forall (λ unit, ∃ names, fs (joinpath book_dir unit) = Directory names)
    unit_list →
  get_content_filepaths fs book_dir unit_list
  = Returned
      (filter (λ f, suffix f = ".md") (entries fs book_dir unit_list),
       filter (λ f, suffix f = ".ipynb") (entries fs book_dir unit_list))
      (omap notice (entries fs book_dir unit_list)).
Proof.
  intros Hall. unfold get_content_filepaths.
  by rewrite scan_units_spec.
Qed.

Lemma get_content_filepaths_classifies_witness :
  get_content_filepaths book_fs ["book"] ["unit1"]
  = Returned
      ([["book"; "unit1"; "intro.md"]], [["book"; "unit1"; "lab.ipynb"]])
      [PrintIgnoringHidden ["book"; "unit1"; "LICENSE"];
       WarnNonHidden ["book"; "unit1"; "notes.txt"]].
Proof.
  rewrite (get_content_filepaths_classifies book_fs ["book"] ["unit1"]).
  - vm_compute. reflexivity.
  - constructor; [|constructor]. eexists. vm_compute. reflexivity.
Defined.

(** C9, as stated, fails: a file without extension is not skipped in
    silence, a line about it is printed. *)
Lemma hidden_file_is_announced :
  suffix ["book"; "unit1"; "LICENSE"] = EmptyString
  ∧ get_content_filepaths hidden_fs ["book"] ["unit1"]
    = Returned ([], []) [PrintIgnoringHidden ["book"; "unit1"; "LICENSE"]]
  ∧ get_content_filepaths hidden_fs ["book"] ["unit1"]
    ≠ Returned ([], []) [].
Proof. by vm_compute. Qed.

(** * Further properties of the two scripts *)

(** ** The classifier and the walk *)

(** X1: the two tests of the classifier exclude one another, and a turn
    of the loop of [get_macros] never fails on an attribute: it either
    gives a set, or the node is a math or environment node whose node
    list the recursive call failed on. *)
Theorem loop_body_no_attribute_error
    (self : list LatexNode → option (gset string)) (macros : gset string)
    (node : LatexNode) :
  is_macro node && has_nodelist node = false
  ∧ (is_Some (loop_body self macros node)
     ∨ ∃ nl, has_nodelist node = true ∧ nodelist node = Some nl
             ∧ self nl = None).
Proof.
  split; [by destruct node|].
  destruct (has_nodelist node) eqn:Hd.
  - destruct (loop_body_descend node Hd) as (nl & Hnl & ->).
    destruct (self nl) eqn:Hself; [left; by eexists|right; by exists nl].
  - left. rewrite loop_body_direct by done. by eexists.
Qed.

(** X2: a walk that needs more nested calls of [get_macros] than the
    call stack has room for raises: when at most [fuel] nested calls fit
    and the math and environment nodes are nested [fuel] deep or deeper,
    the function as written gives no set, not even a partial one. *)
Theorem get_macros_nested_too_deep (fuel : nat)
    (node_list : list LatexNode) :
  fuel ≤ list_depth node_list → get_macros_fuel fuel node_list = None.
Proof. apply get_macros_fuel_short. Qed.

Lemma get_macros_nested_too_deep_witness :
  get_macros_fuel 1 align_delta = None.
Proof.
  apply (get_macros_nested_too_deep 1 align_delta). vm_compute. lia.
Defined.

Lemma elem_of_get_macros (x : string) (node_list : list LatexNode) :
  x ∈ get_macros node_list
  ↔ ∃ node, node ∈ node_list ∧ x ∈ contribution node.
Proof.
  rewrite get_macros_union_list, elem_of_union_list. split.
  - intros (X & HX & Hx). apply list_elem_of_fmap in HX as (n & -> & Hn).
    by exists n.
  - intros (n & Hn & Hx). exists (contribution n). split; [|done].
    apply list_elem_of_fmap. by exists n.
Qed.

(** X3: the collected set grows with the nodes of the list and depends
    on nothing else: a list whose nodes all occur in another collects a
    subset, so two lists with the same nodes, in any order and with any
    repetition, collect the same set. *)
Theorem get_macros_monotone (l1 l2 : list LatexNode) :
  l1 ⊆ l2 →
  get_macros l1 ⊆ get_macros l2
  ∧ (l2 ⊆ l1 → get_macros l1 = get_macros l2).
Proof.
  assert (∀ k1 k2 : list LatexNode,
            k1 ⊆ k2 → get_macros k1 ⊆ get_macros k2) as Hmono.
  { intros k1 k2 Hk x. rewrite !elem_of_get_macros.
    intros (n & Hn & Hx). exists n. split; [by apply Hk|done]. }
  intros H12. split; [by apply Hmono|].
  intros H21. apply set_eq. intros x. split; by apply Hmono.
Qed.

Lemma get_macros_monotone_witness :
  get_macros section_gamma ⊆ get_macros (alpha_plus_beta ++ section_gamma).
Proof.
  apply (get_macros_monotone section_gamma
           (alpha_plus_beta ++ section_gamma)).
  intros n Hn. apply elem_of_app. by right.
Defined.

(** X4: a node that is neither a macro node nor a math or environment
    node adds nothing, whatever it holds: the macros inside a brace group
    are not collected. *)
Theorem unclassified_node_adds_nothing (node : LatexNode)
    (before after : list LatexNode) :
  is_macro node = false → has_nodelist node = false →
  get_macros (before ++ node :: after)
  = get_macros before ∪ get_macros after.
Proof.
  intros Hm Hd. rewrite get_macros_app, get_macros_cons.
  destruct node; try discriminate; simpl; set_solver.
Qed.

Lemma unclassified_node_adds_nothing_witness :
  ("alpha" ∈ macro_names (LatexGroupNode [LatexMacroNode "alpha" []]))
  ∧ get_macros ([] ++ LatexGroupNode [LatexMacroNode "alpha" []] :: [])
    = get_macros [] ∪ get_macros [].
Proof.
  split; [vm_compute; left|].
  apply (unclassified_node_adds_nothing
           (LatexGroupNode [LatexMacroNode "alpha" []]) [] []);
    reflexivity.
Defined.

Lemma fully_walked_reached (node : LatexNode) :
  fully_walked node = true → reached_names node = macro_names node.
Proof.
  induction node as [c|nl IH|nm args IH|nm nl args IH IHa|c|d nl IH]
    using LatexNode_ind; cbn [fully_walked]; intros Hw.
  - done.
  - apply bool_decide_eq_true in Hw. by rewrite Hw.
  - apply bool_decide_eq_true in Hw. by rewrite Hw.
  - apply andb_true_iff in Hw as [Hnl Hargs].
    apply bool_decide_eq_true in Hargs. simpl in Hargs. simpl.
    rewrite Hargs, app_nil_r. clear Hargs IHa.
    induction IH as [|n nl Hn _ IHnl]; [done|].
    simpl in Hnl. apply andb_true_iff in Hnl as [H1 H2].
    simpl. by rewrite Hn, IHnl.
  - done.
  - simpl. induction IH as [|n nl Hn _ IHnl]; [done|].
    simpl in Hw. apply andb_true_iff in Hw as [H1 H2].
    simpl. by rewrite Hn, IHnl.
Qed.

(** X5: on a tree all of whose macro nodes the walk comes to (none sits
    in a group or in an argument) the collected set is the set of the
    names of all macro nodes of the tree, and its size is the number of
    distinct names among them. *)
Theorem get_macros_complete (node_list : list LatexNode) :
  forallb fully_walked node_list = true →
  get_macros node_list = list_to_set (all_macro_names node_list)
  ∧ size (get_macros node_list)
    = length (remove_dups (all_macro_names node_list)).
Proof.
  intros Hw.
  assert (all_reached_names node_list = all_macro_names node_list) as <-.
  { induction node_list as [|n l IH]; [done|].
    simpl in Hw. apply andb_true_iff in Hw as [H1 H2].
    cbn [all_reached_names all_macro_names flat_map].
    rewrite (fully_walked_reached n H1). f_equal. by apply IH. }
  rewrite get_macros_reached. split; [done|].
  apply size_list_to_set_distinct.
Qed.

Lemma get_macros_complete_witness :
  get_macros alpha_plus_beta = list_to_set (all_macro_names alpha_plus_beta).
Proof.
  apply (get_macros_complete alpha_plus_beta). vm_compute. reflexivity.
Defined.

(** ** Cleaning and writing *)

(** X6: cleaning only removes names, and it can be done before or after
    the sets are merged: the cleaned union is the union of the cleaned
    sets, for two sets and for the sets of any number of files. *)
Theorem final_clean_union (A B : gset string) (sets : list (gset string)) :
  final_clean A ⊆ A
  ∧ final_clean (A ∪ B) = final_clean A ∪ final_clean B
  ∧ final_clean (⋃ sets) = ⋃ (final_clean <$> sets).
Proof.
  split; [|split].
  - intros x. rewrite elem_of_final_clean. tauto.
  - apply set_eq. intros x.
    rewrite elem_of_union, !elem_of_final_clean, elem_of_union. tauto.
  - apply set_eq. intros x.
    rewrite elem_of_final_clean, !elem_of_union_list. split.
    + intros ((X & HX & Hx) & Hs & Hp). exists (final_clean X).
      split; [apply list_elem_of_fmap; by exists X|].
      by apply elem_of_final_clean.
    + intros (Y & HY & Hx).
      apply list_elem_of_fmap in HY as (X & -> & HX).
      apply elem_of_final_clean in Hx as (Hx & Hs & Hp).
      split; [by exists X|done].
Qed.

Lemma universal_newlines_id (s : string) :
  contains (ascii_of_nat 13) s = false →
  Reference.universal_newlines s = s.
Proof.
  induction s as [|c s IH]; [done|].
  cbn [contains Reference.universal_newlines].
  intros [Hc Hs]%orb_false_iff. rewrite Hc. by rewrite IH.
Qed.

Lemma contains_append (c : ascii) (s t : string) :
  contains c (s +:+ t) = contains c s || contains c t.
Proof.
  induction s as [|a s IH]; [done|].
  change (String a s +:+ t) with (String a (s +:+ t)).
  simpl. by rewrite IH, orb_assoc.
Qed.

Lemma contains_join (c : ascii) (sep : string) (items : list string) :
  contains c sep = false → Forall (λ x, contains c x = false) items →
  contains c (join sep items) = false.
Proof.
  intros Hsep. induction 1 as [|x l Hx Hl IH]; [done|].
  destruct l as [|y l]; [done|].
  change (join sep (x :: y :: l)) with (x +:+ sep +:+ join sep (y :: l)).
  by rewrite !contains_append, Hx, Hsep, IH.
Qed.

(** X7: what [write_file] writes, [load_macros] of the other script reads
    back, whatever the file held before, provided the names hold no
    carriage return, which a read in text mode would turn into a
    newline; and for a nonempty set of names without newline characters
    the lines of the text read, taken as a set, are the set that was
    written. *)
Theorem load_macros_write_file (iter : gset string → list string)
    (macros earlier : gset string) (files : Files) :
  iter macros ≡ₚ elements macros →
  (∀ m, m ∈ macros →
        contains newline m = false ∧ contains (ascii_of_nat 13) m = false) →
  macros ≠ ∅ →
  Reference.load_macros (write_file iter macros files)
  = Some (written_text iter macros)
  ∧ Reference.load_macros
      (write_file iter macros (write_file iter earlier files))
    = Some (written_text iter macros)
  ∧ list_to_set (split newline (written_text iter macros)) = macros.
Proof.
  intros Hiter Hnames Hne.
  assert (Reference.universal_newlines (written_text iter macros)
          = written_text iter macros) as Hread.
  { apply universal_newlines_id, contains_join; [done|].
    apply Forall_forall. intros x Hx. apply Hnames.
    rewrite Hiter in Hx. by apply elem_of_elements in Hx. }
  unfold Reference.load_macros, write_file.
  rewrite !lookup_insert_eq. simpl. rewrite Hread.
  split; [done|]. split; [done|].
  unfold written_text. rewrite split_join.
  - apply set_eq. intros x.
    by rewrite elem_of_list_to_set, Hiter, elem_of_elements.
  - intros Hnil. apply Hne. apply leibniz_equiv, elements_empty_iff.
    apply Permutation_nil_r. by rewrite <- Hiter, Hnil.
  - apply Forall_forall. intros x Hx. apply Hnames.
    rewrite Hiter in Hx. by apply elem_of_elements in Hx.
Qed.

Lemma load_macros_write_file_witness :
  list_to_set (split newline (written_text elements {["alpha"; "beta"]}))
  = ({["alpha"; "beta"]} : gset string).
Proof.
  apply (load_macros_write_file elements {["alpha"; "beta"]} ∅ ∅).
  - reflexivity.
  - intros m Hm. apply elem_of_union in Hm.
    destruct Hm as [Hm|Hm]; apply elem_of_singleton in Hm; rewrite Hm;
      vm_compute; split; reflexivity.
  - vm_compute. discriminate.
Defined.

(** X8: the file that [main] writes from a cleaned set has no blank
    line, no line of the deny list and no line twice: when the names
    left by the cleaning hold no newline character and some name is
    left, every line is a name of the set that passes the test of the
    cleaner, and the lines are pairwise different. *)
Theorem cleaned_file_lines (iter : gset string → list string)
    (macros : gset string) :
  iter (final_clean macros) ≡ₚ elements (final_clean macros) →
  (∀ m, m ∈ final_clean macros → contains newline m = false) →
  final_clean macros ≠ ∅ →
  Forall (λ line, line ∈ macros ∧ strip line ≠ EmptyString
                  ∧ line ∉ problem_list)
    (split newline (written_text iter (final_clean macros)))
  ∧ NoDup (split newline (written_text iter (final_clean macros))).
Proof.
  intros Hiter Hnames Hne. unfold written_text. rewrite split_join.
  - split.
    + apply Forall_forall. intros x Hx. rewrite Hiter in Hx.
      apply elem_of_elements in Hx. by apply elem_of_final_clean.
    + rewrite Hiter. apply NoDup_elements.
  - intros Hnil. apply Hne. apply leibniz_equiv, elements_empty_iff.
    apply Permutation_nil_r. by rewrite <- Hiter, Hnil.
  - apply Forall_forall. intros x Hx. apply Hnames.
    rewrite Hiter in Hx. by apply elem_of_elements in Hx.
Qed.

Lemma cleaned_file_lines_witness :
  NoDup (split newline
           (written_text elements
              (final_clean {["alpha"; String newline EmptyString; "beta"]}))).
Proof.
  apply (cleaned_file_lines elements
           {["alpha"; String newline EmptyString; "beta"]}).
  - reflexivity.
  - intros m Hm.
    assert (final_clean {["alpha"; String newline EmptyString; "beta"]}
            = ({["alpha"; "beta"]} : gset string)) as Heq
      by (vm_compute; reflexivity).
    rewrite Heq in Hm. apply elem_of_union in Hm.
    destruct Hm as [Hm|Hm]; apply elem_of_singleton in Hm; rewrite Hm;
      vm_compute; reflexivity.
  - vm_compute. discriminate.
Defined.

(** ** The scan, its failures and what follows it *)

Lemma scan_units_app (fs : Path → DirEntry) (book : Path)
    (before after : list string) (st : Scan) :
  Forall (λ unit, ∃ names, fs (joinpath book unit) = Directory names)
    before →
  scan_units fs book (before ++ after) st
  = scan_units fs book after
      (mkScan
         (all_md_filepaths st
            ++ filter (λ f, suffix f = ".md") (entries fs book before))
         (all_ipynb_filepaths st
            ++ filter (λ f, suffix f = ".ipynb") (entries fs book before))
         (console st ++ omap notice (entries fs book before))).
Proof.
  intros Hall. revert st.
  induction Hall as [|unit units [names Hnames] _ IH]; intros st.
  - simpl. rewrite !app_nil_r. by destruct st.
  - cbn [app scan_units entries flat_map]. rewrite Hnames, IH.
    rewrite foldl_classify.
    cbn [all_md_filepaths all_ipynb_filepaths console].
    fold (entries fs book units).
    by rewrite !filter_app, omap_app, <- !app_assoc.
Qed.

(** X9: the scan stops at the first folder that is not a directory.  If
    the folder is missing it raises the [AssertionError] about that
    folder, if it is a file the [NotADirectoryError] of [iterdir]; the
    later folders are not looked at, no list is returned, and the console
    holds what the folders before it gave. *)
Theorem get_content_filepaths_stops (fs : Path → DirEntry) (book : Path)
    (before after : list string) (unit : string) :
  Forall (λ unit, ∃ names, fs (joinpath book unit) = Directory names)
    before →
  (∀ names, fs (joinpath book unit) ≠ Directory names) →
  get_content_filepaths fs book (before ++ unit :: after)
  = Raised
      (match fs (joinpath book unit) with
       | RegularFile => NotADirectoryError (joinpath book unit)
       | _ => AssertionError (joinpath book unit)
       end)
      (omap notice (entries fs book before)).
Proof.
  intros Hbefore Hunit. unfold get_content_filepaths.
  rewrite scan_units_app by done. cbn [scan_units console app].
  destruct (fs (joinpath book unit)) as [| |names] eqn:Hfs; [done|done|].
  by destruct (Hunit names).
Qed.

Lemma get_content_filepaths_stops_witness :
  get_content_filepaths book_fs ["book"] (["unit1"] ++ "unit2" :: ["unit1"])
  = Raised (AssertionError ["book"; "unit2"])
      [PrintIgnoringHidden ["book"; "unit1"; "LICENSE"];
       WarnNonHidden ["book"; "unit1"; "notes.txt"]].
Proof.
  rewrite (get_content_filepaths_stops book_fs ["book"] ["unit1"]
             ["unit1"] "unit2").
  - vm_compute. reflexivity.
  - constructor; [|constructor]. eexists. vm_compute. reflexivity.
  - intros names. vm_compute. discriminate.
Defined.

Lemma scan_units_returned (fs : Path → DirEntry) (book : Path)
    (unit_list : list string) (st : Scan) (lists : list Path * list Path)
    (out : list Event) :
  scan_units fs book unit_list st = Returned lists out →
  Forall (λ unit, ∃ names, fs (joinpath book unit) = Directory names)
    unit_list.
Proof.
  revert st. induction unit_list as [|unit units IH]; intros st; [done|].
  cbn [scan_units].
  destruct (fs (joinpath book unit)) as [| |names] eqn:Hfs; [done|done|].
  intros H. constructor; [by exists names|]. by eapply IH.
Qed.






(** With a folder listed twice the second warning about a file is not
    displayed: of the four notices of the console three are shown. *)
Example repeated_folder_warns_once :
  get_content_filepaths book_fs ["book"] ["unit1"; "unit1"]
  = Returned
      ([["book"; "unit1"; "intro.md"]; ["book"; "unit1"; "intro.md"]],
       [["book"; "unit1"; "lab.ipynb"]; ["book"; "unit1"; "lab.ipynb"]])
      [PrintIgnoringHidden ["book"; "unit1"; "LICENSE"];
       WarnNonHidden ["book"; "unit1"; "notes.txt"];
       PrintIgnoringHidden ["book"; "unit1"; "LICENSE"];
       WarnNonHidden ["book"; "unit1"; "notes.txt"]]
  ∧ shown [] [PrintIgnoringHidden ["book"; "unit1"; "LICENSE"];
              WarnNonHidden ["book"; "unit1"; "notes.txt"];
              PrintIgnoringHidden ["book"; "unit1"; "LICENSE"];
              WarnNonHidden ["book"; "unit1"; "notes.txt"]]
    = [PrintIgnoringHidden ["book"; "unit1"; "LICENSE"];
       WarnNonHidden ["book"; "unit1"; "notes.txt"];
       PrintIgnoringHidden ["book"; "unit1"; "LICENSE"]].
Proof. by vm_compute. Qed.

Lemma scan_returns_markdown (fs : Path → DirEntry) (book : Path)
    (units : list string) (md nb : list Path) (out : list Event) :
  get_content_filepaths fs book units = Returned (md, nb) out →
  forallb (λ file, String.eqb (suffix file) ".md") md = true.
Proof.
  intros Hret. pose proof Hret as Hdirs.
  apply scan_units_returned in Hdirs. unfold get_content_filepaths in Hret.
  rewrite scan_units_spec in Hret by done. simpl in Hret.
  injection Hret as <- _ _. apply forallb_forall. intros f Hf.
  apply list_elem_of_In, list_elem_of_filter in Hf as [Hf _].
  rewrite Hf. reflexivity.
Qed.

Lemma md_failure_kind (can_read : Path → bool) (md : list Path)
    (e : Failure) :
  md_failure can_read md = Some e → e = NotMarkdown ∨ ∃ f, e = ReadFailed f.
Proof.
  induction md as [|g md IH]; [done|]. cbn [md_failure].
  destruct (negb (String.eqb (suffix g) ".md")); [intros [= <-]; by left|].
  destruct (negb (can_read g)); [intros [= <-]; right; by exists g|done].
Qed.

Lemma md_failure_markdown (can_read : Path → bool) (md : list Path) :
  forallb (λ file, String.eqb (suffix file) ".md") md = true →
  md_failure can_read md ≠ Some NotMarkdown
  ∧ (∀ f, md_failure can_read md = Some (ReadFailed f) →
          f ∈ md ∧ can_read f = false)
  ∧ ((∀ f, f ∈ md → can_read f = true) → md_failure can_read md = None).
Proof.
  induction md as [|g md IH]; [done|]. cbn [forallb md_failure].
  intros [Hg Hmd]%andb_true_iff. rewrite Hg. cbn [negb].
  destruct (IH Hmd) as (IH1 & IH2 & IH3).
  destruct (can_read g) eqn:Hread; cbn [negb].
  - split; [done|]. split.
    + intros f Hf. destruct (IH2 f Hf) as [Hin Hcr].
      split; [by right|done].
    + intros Hall. apply IH3. intros f Hf. apply Hall. by right.
  - split; [done|]. split.
    + intros f [= <-]. split; [left|done].
    + intros Hall. rewrite Hall in Hread by left. done.
Qed.



Lemma union_list_fmap_same_elements {A : Type} (f : A → gset string)
    (l1 l2 : list A) :
  (∀ x, x ∈ l1 ↔ x ∈ l2) → ⋃ (f <$> l1) = ⋃ (f <$> l2).
Proof.
  intros Hsame. apply set_eq. intros y. rewrite !elem_of_union_list.
  split; intros (X & HX & Hy);
    apply list_elem_of_fmap in HX as (x & -> & Hx);
    (exists (f x); split; [apply list_elem_of_fmap; exists x|done]);
    (split; [done|]); by apply Hsame.
Qed.

Lemma forallb_same_elements {A : Type} (p : A → bool) (l1 l2 : list A) :
  (∀ x, x ∈ l1 ↔ x ∈ l2) → forallb p l1 = forallb p l2.
Proof.
  intros Hsame. apply eq_true_iff_eq. rewrite !forallb_forall.
  split; intros H x Hx; apply H; apply list_elem_of_In;
    apply Hsame; by apply list_elem_of_In.
Qed.

Lemma all_macros_used_spec (get_nodelist : string → list LatexNode)
    (read_text : Path → string) (read_cells : Path → list string)
    (md_files ipynb_files : list Path) :
  all_macros_used get_nodelist read_text read_cells md_files ipynb_files
  = if forallb (λ file, String.eqb (suffix file) ".md") md_files
    then Some
           (⋃ (get_macros
                 <$> ((λ file, get_nodelist (read_text file)) <$> md_files))
            ∪ ⋃ (get_macros
                   <$> ((λ file, get_nodelist (nb_text read_cells file))
                          <$> ipynb_files)))
    else None.
Proof.
  unfold all_macros_used, process_md_files. rewrite md_loop_spec.
  destruct (forallb _ md_files); [|done]. simpl.
  rewrite process_ipynb_files_spec. f_equal. set_solver.
Qed.

(** X12: the set that [main] builds does not depend on the order in
    which the files are listed, nor on a file being listed twice: two
    markdown lists with the same files and two notebook lists with the
    same files give the same result. *)
Theorem all_macros_used_order (get_nodelist : string → list LatexNode)
    (read_text : Path → string) (read_cells : Path → list string)
    (md1 md2 nb1 nb2 : list Path) :
  (∀ f, f ∈ md1 ↔ f ∈ md2) → (∀ f, f ∈ nb1 ↔ f ∈ nb2) →
  all_macros_used get_nodelist read_text read_cells md1 nb1
  = all_macros_used get_nodelist read_text read_cells md2 nb2.
Proof.
  intros Hmd Hnb. rewrite !all_macros_used_spec.
  rewrite (forallb_same_elements _ md1 md2 Hmd).
  destruct (forallb _ md2); [|done]. f_equal. rewrite <- !list_fmap_compose.
  by rewrite (union_list_fmap_same_elements _ md1 md2 Hmd),
    (union_list_fmap_same_elements _ nb1 nb2 Hnb).
Qed.

Lemma all_macros_used_order_witness :
  all_macros_used (λ _, alpha_plus_beta) (λ _, EmptyString) (λ _, [])
    [["a.md"]; ["b.md"]] [["c.ipynb"]]
  = all_macros_used (λ _, alpha_plus_beta) (λ _, EmptyString) (λ _, [])
      [["b.md"]; ["a.md"]; ["b.md"]] [["c.ipynb"]].
Proof.
  apply (all_macros_used_order (λ _, alpha_plus_beta) (λ _, EmptyString)
           (λ _, []) [["a.md"]; ["b.md"]] [["b.md"]; ["a.md"]; ["b.md"]]
           [["c.ipynb"]] [["c.ipynb"]]).
  - intros f. rewrite !elem_of_cons. pose proof (not_elem_of_nil f). tauto.
  - intros f. reflexivity.
Defined.

Lemma scan_returned_lists (fs : Path → DirEntry) (book : Path)
    (units : list string) (md nb : list Path) (out : list Event) :
  get_content_filepaths fs book units = Returned (md, nb) out →
  md = filter (λ f, suffix f = ".md") (entries fs book units)
  ∧ nb = filter (λ f, suffix f = ".ipynb") (entries fs book units)
  ∧ out = omap notice (entries fs book units).
Proof.
  intros Hret. pose proof Hret as Hdirs.
  apply scan_units_returned in Hdirs. unfold get_content_filepaths in Hret.
  rewrite scan_units_spec in Hret by done. simpl in Hret.
  by injection Hret as <- <- <-.
Qed.

Lemma ipynb_failure_spec (can_read : Path → bool) (nb : list Path) :
  ipynb_failure can_read nb ≠ Some NotMarkdown
  ∧ (∀ f, ipynb_failure can_read nb = Some (ReadFailed f) →
          f ∈ nb ∧ can_read f = false)
  ∧ (∀ e, ipynb_failure can_read nb = Some e → ∃ f, e = ReadFailed f)
  ∧ ((∀ f, f ∈ nb → can_read f = true) → ipynb_failure can_read nb = None).
Proof.
  induction nb as [|g nb (IH1 & IH2 & IH3 & IH4)]; [done|].
  cbn [ipynb_failure]. destruct (can_read g) eqn:Hread; cbn [negb].
  - split; [done|]. split; [|split; [done|]].
    + intros f Hf. destruct (IH2 f Hf) as [Hin Hcr].
      split; [by right|done].
    + intros Hall. apply IH4. intros f Hf. apply Hall. by right.
  - split; [done|]. split; [|split].
    + intros f [= <-]. split; [left|done].
    + intros e [= <-]. by exists g.
    + intros Hall. rewrite Hall in Hread by left. done.
Qed.



(** ** The output of [create_latex_reference.py] *)

Lemma string_length_app (s t : string) :
  String.length (s +:+ t) = String.length s + String.length t.
Proof.
  induction s as [|a s IH]; [done|].
  change (String a s +:+ t) with (String a (s +:+ t)).
  simpl. by rewrite IH.
Qed.

Lemma string_app_inj_tail (s1 s2 r1 r2 : string) :
  s1 +:+ r1 = s2 +:+ r2 → String.length r1 = String.length r2 →
  s1 = s2 ∧ r1 = r2.
Proof.
  revert s2. induction s1 as [|a s1 IH]; intros s2 Heq Hlen.
  - destruct s2 as [|b s2]; [done|].
    change (r1 = String b (s2 +:+ r2)) in Heq.
    rewrite Heq in Hlen. simpl in Hlen. rewrite string_length_app in Hlen.
    lia.
  - destruct s2 as [|b s2].
    + change (String a (s1 +:+ r1) = r2) in Heq.
      rewrite <- Heq in Hlen. simpl in Hlen.
      rewrite string_length_app in Hlen. lia.
    + change (String a (s1 +:+ r1) = String b (s2 +:+ r2)) in Heq.
      injection Heq as -> Heq. destruct (IH s2 Heq Hlen) as [-> ->]. done.
Qed.

Lemma digit_inj (a b : nat) :
  Reference.digit a = Reference.digit b → a `mod` 10 = b `mod` 10.
Proof.
  unfold Reference.digit. intros H.
  apply (f_equal nat_of_ascii) in H.
  pose proof (Nat.mod_upper_bound a 10). pose proof (Nat.mod_upper_bound b 10).
  rewrite !nat_ascii_embedding in H by lia. lia.
Qed.

Lemma two_digits_inj (a b : nat) :
  a < 100 → b < 100 →
  Reference.two_digits a = Reference.two_digits b → a = b.
Proof.
  intros Ha Hb [= H1 H2]. apply digit_inj in H1, H2.
  change (Nat.divmod a 9 0 9).1 with (a / 10) in H1.
  change (Nat.divmod b 9 0 9).1 with (b / 10) in H1.
  rewrite (Nat.div_mod_eq a 10), (Nat.div_mod_eq b 10).
  rewrite (Nat.mod_small (a / 10) 10) in H1
    by (apply Nat.Div0.div_lt_upper_bound; lia).
  rewrite (Nat.mod_small (b / 10) 10) in H1
    by (apply Nat.Div0.div_lt_upper_bound; lia).
  lia.
Qed.

Lemma last_digit_inj (a b : nat) :
  a `mod` 10 = b `mod` 10 → a / 10 = b / 10 → a = b.
Proof.
  intros Hm Hd. rewrite (Nat.div_mod_eq a 10), (Nat.div_mod_eq b 10). lia.
Qed.

Lemma four_digits_inj (a b : nat) :
  a < 100 * 100 → b < 100 * 100 →
  Reference.four_digits a = Reference.four_digits b → a = b.
Proof.
  intros Ha Hb H. unfold Reference.four_digits, Reference.two_digits in H.
  assert (Reference.digit (a / 1000) = Reference.digit (b / 1000)
          ∧ Reference.digit (a / 100) = Reference.digit (b / 100)
          ∧ Reference.digit (a / 10) = Reference.digit (b / 10)
          ∧ Reference.digit a = Reference.digit b) as (H1 & H2 & H3 & H4).
  { repeat split; congruence. }
  apply digit_inj in H1, H2, H3, H4.
  apply last_digit_inj; [done|].
  apply last_digit_inj; [done|]. rewrite !Nat.Div0.div_div.
  change (10 * 10) with 100.
  apply last_digit_inj; [done|]. rewrite !Nat.Div0.div_div.
  change (100 * 10) with 1000.
  rewrite (Nat.mod_small (a / 1000) 10) in H1
    by (apply Nat.Div0.div_lt_upper_bound; lia).
  rewrite (Nat.mod_small (b / 1000) 10) in H1
    by (apply Nat.Div0.div_lt_upper_bound; lia).
  done.
Qed.

Lemma strftime_length (dt : Reference.datetime) :
  String.length (Reference.strftime dt) = 16.
Proof. reflexivity. Qed.

Lemma strftime_inj (dt1 dt2 : Reference.datetime) :
  valid_datetime dt1 → valid_datetime dt2 →
  Reference.strftime dt1 = Reference.strftime dt2 → same_minute dt1 dt2.
Proof.
  intros (Hy1 & Hm1 & Hd1 & Hh1 & Hmin1 & _)
         (Hy2 & Hm2 & Hd2 & Hh2 & Hmin2 & _) H.
  assert (Reference.four_digits (Reference.year dt1)
          = Reference.four_digits (Reference.year dt2)
          ∧ Reference.two_digits (Reference.month dt1)
            = Reference.two_digits (Reference.month dt2)
          ∧ Reference.two_digits (Reference.day dt1)
            = Reference.two_digits (Reference.day dt2)
          ∧ Reference.two_digits (Reference.hour dt1)
            = Reference.two_digits (Reference.hour dt2)
          ∧ Reference.two_digits (Reference.minute dt1)
            = Reference.two_digits (Reference.minute dt2))
    as (Ey & Em & Ed & Eh & Emin).
  { cbv [Reference.strftime Reference.four_digits Reference.two_digits
         String.append] in H.
    unfold Reference.four_digits, Reference.two_digits.
    repeat split; congruence. }
  repeat split.
  - apply four_digits_inj; [lia|lia|done].
  - apply two_digits_inj; [lia|lia|done].
  - apply two_digits_inj; [lia|lia|done].
  - apply two_digits_inj; [lia|lia|done].
  - apply two_digits_inj; [lia|lia|done].
Qed.

Lemma string_app_inj_head (s r1 r2 : string) :
  s +:+ r1 = s +:+ r2 → r1 = r2.
Proof.
  induction s as [|a s IH]; [done|].
  change (String a (s +:+ r1) = String a (s +:+ r2) → r1 = r2).
  intros [= H]. by apply IH.
Qed.

Lemma same_minute_strftime (dt1 dt2 : Reference.datetime) :
  same_minute dt1 dt2 → Reference.strftime dt1 = Reference.strftime dt2.
Proof.
  destruct dt1, dt2. unfold same_minute, Reference.strftime. simpl.
  intros (-> & -> & -> & -> & ->). done.
Qed.

(** X14: the reference script never writes over the list it reads: the
    name of its output file is never [macros_used.txt], so after its
    [write_file] the response is in the output file and [load_macros]
    reads what it read before. *)
Theorem reference_write_file_keeps_macros (response model_type : string)
    (now : Reference.datetime) (files : Files) :
  Reference.filename model_type now ≠ "macros_used.txt"
  ∧ fst (Reference.write_file response model_type now files)
      !! Reference.filename model_type now = Some response
  ∧ Reference.load_macros
      (fst (Reference.write_file response model_type now files))
    = Reference.load_macros files.
Proof.
  assert (Reference.filename model_type now ≠ "macros_used.txt") as Hne.
  { unfold Reference.filename.
    change ("latex_reference_" +:+ ?s)
      with (String "l" ("atex_reference_" +:+ s)).
    discriminate. }
  split; [done|]. split; [apply lookup_insert_eq|].
  unfold Reference.load_macros, Reference.write_file. simpl.
  by rewrite lookup_insert_ne.
Qed.

Lemma filename_same_file (model1 model2 : string)
    (now1 now2 : Reference.datetime) :
  valid_datetime now1 → valid_datetime now2 →
  Reference.filename model1 now1 = Reference.filename model2 now2
  ↔ model1 = model2 ∧ same_minute now1 now2.
Proof.
  intros Hv1 Hv2. unfold Reference.filename. split.
  - intros H. apply string_app_inj_head in H.
    apply string_app_inj_tail in H as [-> H]; [|reflexivity].
    split; [done|]. apply string_app_inj_head in H.
    apply string_app_inj_tail in H as [H _]; [|reflexivity].
    by apply strftime_inj.
  - intros [-> Hsame]. by rewrite (same_minute_strftime now1 now2).
Qed.

(** X15: two runs of the reference script name the same output file
    exactly when they use the same model and happen in the same minute;
    the seconds play no part. *)
Theorem reference_filename_inj (model1 model2 : string)
    (now1 now2 : Reference.datetime) :
  valid_datetime now1 → valid_datetime now2 →
  Reference.filename model1 now1 = Reference.filename model2 now2
  ↔ model1 = model2 ∧ same_minute now1 now2.
Proof. apply filename_same_file. Qed.

Lemma reference_filename_inj_witness :
  Reference.filename "gpt-4" (Reference.mkDatetime 2023 7 15 22 36 11)
  = Reference.filename "gpt-4" (Reference.mkDatetime 2023 7 15 22 36 50).
Proof.
  apply (reference_filename_inj "gpt-4" "gpt-4"
           (Reference.mkDatetime 2023 7 15 22 36 11)
           (Reference.mkDatetime 2023 7 15 22 36 50)).
  - unfold valid_datetime. simpl. lia.
  - unfold valid_datetime. simpl. lia.
  - split; [reflexivity|]. unfold same_minute. simpl. lia.
Defined.

(** X16: of two runs of the reference script, the second replaces the
    output of the first when both use the same model in the same minute,
    and otherwise leaves it in place beside its own. *)
Theorem reference_runs_overwrite (response1 response2 model1 model2 : string)
    (now1 now2 : Reference.datetime) (files : Files) :
  valid_datetime now1 → valid_datetime now2 →
  let after :=
    fst (Reference.write_file response2 model2 now2
           (fst (Reference.write_file response1 model1 now1 files))) in
  after !! Reference.filename model2 now2 = Some response2
  ∧ (model1 = model2 ∧ same_minute now1 now2 →
     after !! Reference.filename model1 now1 = Some response2)
  ∧ (¬ (model1 = model2 ∧ same_minute now1 now2) →
     after !! Reference.filename model1 now1 = Some response1).
Proof.
  intros Hv1 Hv2 after. unfold after, Reference.write_file. simpl.
  split; [apply lookup_insert_eq|]. split.
  - intros Hsame.
    apply (filename_same_file model1 model2 now1 now2) in Hsame; [|done..].
    rewrite Hsame. apply lookup_insert_eq.
  - intros Hdiff. rewrite lookup_insert_ne.
    + apply lookup_insert_eq.
    + intros Heq. apply Hdiff. symmetry in Heq.
      by apply (filename_same_file model1 model2 now1 now2).
Qed.

Lemma reference_runs_overwrite_witness :
  fst (Reference.write_file "second" "gpt-4"
         (Reference.mkDatetime 2023 7 15 22 37 0)
         (fst (Reference.write_file "first" "gpt-4"
                 (Reference.mkDatetime 2023 7 15 22 36 11) ∅)))
  !! Reference.filename "gpt-4" (Reference.mkDatetime 2023 7 15 22 36 11)
  = Some "first".
Proof.
  apply (reference_runs_overwrite "first" "second" "gpt-4" "gpt-4"
           (Reference.mkDatetime 2023 7 15 22 36 11)
           (Reference.mkDatetime 2023 7 15 22 37 0) ∅).
  - unfold valid_datetime. simpl. lia.
  - unfold valid_datetime. simpl. lia.
  - unfold same_minute. simpl. lia.
Defined.

(** ** Which entries the scan takes *)

Lemma name_joinpath (dir : Path) (nm : string) : name (joinpath dir nm) = nm.
Proof. unfold name, joinpath. apply last_last. Qed.

Lemma rfind_app (c : ascii) (stem e : string) :
  contains c e = false →
  rfind c (stem +:+ String c e) = Some (String.length stem).
Proof.
  intros He. induction stem as [|a stem IH].
  - change (rfind c (String c e) = Some 0). simpl.
    assert (rfind c e = None) as ->.
    { clear -He. induction e as [|b e IH]; [done|]. simpl in *.
      apply orb_false_iff in He as [Hb He]. by rewrite IH, Hb. }
    by rewrite Ascii.eqb_refl.
  - change (rfind c (String a (stem +:+ String c e))
            = Some (S (String.length stem))).
    simpl. by rewrite IH.
Qed.

Lemma slice_from_app (stem t : string) :
  slice_from (String.length stem) (stem +:+ t) = t.
Proof.
  induction stem as [|a stem IH]; [by destruct t|].
  change (slice_from (S (String.length stem)) (String a (stem +:+ t)) = t).
  simpl. exact IH.
Qed.

Lemma slice_from_split (i : nat) (s : string) :
  i ≤ String.length s →
  ∃ stem, s = stem +:+ slice_from i s ∧ String.length stem = i.
Proof.
  revert s. induction i as [|i IH]; intros s Hi.
  - exists EmptyString. by destruct s.
  - destruct s as [|a s]; [simpl in Hi; lia|].
    destruct (IH s) as (stem & Hs & Hlen); [simpl in Hi; lia|].
    exists (String a stem). split; [|simpl; by rewrite Hlen].
    change (String a s = String a (stem +:+ slice_from i s)).
    by rewrite <- Hs.
Qed.

Lemma suffix_iff (dir : Path) (nm e : string) :
  contains "." e = false → e ≠ EmptyString →
  suffix (joinpath dir nm) = String "." e
  ↔ ∃ stem, stem ≠ EmptyString ∧ nm = stem +:+ String "." e.
Proof.
  intros He Hne. unfold suffix. rewrite name_joinpath. split.
  - destruct (rfind "." nm) as [i|]; [|done].
    destruct (0 <? i) eqn:Hpos; [|done].
    destruct (i <? String.length nm - 1) eqn:Hlt; [|done]. simpl.
    apply Nat.ltb_lt in Hpos, Hlt. intros Hs.
    destruct (slice_from_split i nm) as (stem & Hnm & Hlen); [lia|].
    exists stem. split; [|by rewrite <- Hs].
    intros ->. simpl in Hlen. lia.
  - intros (stem & Hstem & ->). rewrite rfind_app by done.
    rewrite string_length_app.
    assert (0 < String.length stem) as Hpos by (destruct stem; simpl; [done|lia]).
    assert (0 < String.length e) as Hpos' by (destruct e; simpl; [done|lia]).
    simpl String.length.
    rewrite (proj2 (Nat.ltb_lt _ _)) by lia.
    rewrite (proj2 (Nat.ltb_lt _ _)) by lia.
    simpl. apply slice_from_app.
Qed.

Lemma list_snoc_ne {A : Type} (l : list A) (x : A) : l ≠ l ++ [x].
Proof.
  intros H. apply (f_equal length) in H. rewrite length_app in H.
  simpl in H. lia.
Qed.

Lemma classify_md_iff (st : Scan) (file : Path) :
  classify st file
  = mkScan (all_md_filepaths st ++ [file]) (all_ipynb_filepaths st)
      (console st)
  ↔ suffix file = ".md".
Proof.
  unfold classify.
  destruct (String.eqb_spec (suffix file) ".md") as [Hmd|Hmd]; [done|].
  split; [|done]. intros Heq. apply (f_equal all_md_filepaths) in Heq.
  destruct (String.eqb (suffix file) ".ipynb"),
    (negb (truthy (suffix file))); simpl in Heq;
    by apply list_snoc_ne in Heq.
Qed.

Lemma classify_ipynb_iff (st : Scan) (file : Path) :
  classify st file
  = mkScan (all_md_filepaths st) (all_ipynb_filepaths st ++ [file])
      (console st)
  ↔ suffix file = ".ipynb".
Proof.
  unfold classify.
  destruct (String.eqb_spec (suffix file) ".md") as [Hmd|Hmd].
  { split; [|congruence]. intros Heq.
    apply (f_equal all_ipynb_filepaths) in Heq. simpl in Heq.
    by apply list_snoc_ne in Heq. }
  destruct (String.eqb_spec (suffix file) ".ipynb") as [Hnb|Hnb]; [done|].
  split; [|done]. intros Heq. apply (f_equal all_ipynb_filepaths) in Heq.
  destruct (negb (truthy (suffix file))); simpl in Heq;
    by apply list_snoc_ne in Heq.
Qed.

(** X17: the scan takes an entry as a markdown file exactly when its
    name is a nonempty stem followed by [.md], and as a notebook exactly
    when its name is a nonempty stem followed by [.ipynb], where the stem
    may hold dots itself; a file named [.md] alone is not taken. *)
Theorem classify_by_name (st : Scan) (dir : Path) (nm : string) :
  (classify st (joinpath dir nm)
   = mkScan (all_md_filepaths st ++ [joinpath dir nm])
       (all_ipynb_filepaths st) (console st)
   ↔ ∃ stem, stem ≠ EmptyString ∧ nm = stem +:+ ".md")
  ∧ (classify st (joinpath dir nm)
     = mkScan (all_md_filepaths st)
         (all_ipynb_filepaths st ++ [joinpath dir nm]) (console st)
     ↔ ∃ stem, stem ≠ EmptyString ∧ nm = stem +:+ ".ipynb").
Proof.
  rewrite classify_md_iff, classify_ipynb_iff.
  split; by apply suffix_iff.
Qed.

(** ** How [main] fails *)

(** X18: the assertion of [process_md_files] never fails in a run of
    [main].  The run fails with the assertion on the book directory
    exactly when that directory is missing; when it fails on a read, the
    file is an entry of the scanned folders that cannot be read; and a
    run that fails anywhere before [f.write] (in the scan, on a read, on
    the opening of the output file) leaves the files of the working
    directory, an earlier [macros_used.txt] among them, as they were. *)
Theorem main_failure (fs : Path → DirEntry)
    (get_nodelist : string → list LatexNode) (read_text : Path → string)
    (read_cells : Path → list string) (iter : gset string → list string)
    (can_read : Path → bool) (write_outcome : WriteOutcome)
    (home : Path) (files : Files) :
  let run := main fs get_nodelist read_text read_cells iter can_read
               write_outcome home files in
  snd run ≠ Some NotMarkdown
  ∧ (snd run = Some (BookDirNotFound (book_dir home))
     ↔ fs (book_dir home) = Missing)
  ∧ (∀ f, snd run = Some (ReadFailed f) →
          f ∈ entries fs (book_dir home) unit_list ∧ can_read f = false)
  ∧ (snd run ≠ None → snd run ≠ Some WriteFailed → fst run = files).
Proof.
  intros run. unfold run, main.
  set (rest := match get_content_filepaths fs (book_dir home) unit_list
               with Returned _ _ => _ | Raised _ _ => _ end).
  assert (snd rest ≠ Some NotMarkdown
          ∧ snd rest ≠ Some (BookDirNotFound (book_dir home))
          ∧ (∀ f, snd rest = Some (ReadFailed f) →
                  f ∈ entries fs (book_dir home) unit_list
                  ∧ can_read f = false)
          ∧ (snd rest ≠ None → snd rest ≠ Some WriteFailed →
             fst rest = files)) as (R1 & R2 & R3 & R4).
  { unfold rest. clear rest.
    destruct (get_content_filepaths fs (book_dir home) unit_list)
      as [[md nb] out|e out] eqn:Hscan; [|by simpl].
    pose proof (scan_returns_markdown _ _ _ _ _ _ Hscan) as Hmd.
    destruct (scan_returned_lists _ _ _ _ _ _ Hscan) as (Emd & Enb & _).
    destruct (md_failure_markdown can_read md Hmd) as (M1 & M2 & _).
    destruct (ipynb_failure_spec can_read nb) as (N1 & N2 & N3 & _).
    rewrite all_macros_used_spec, Hmd.
    destruct (md_failure can_read md) as [e|] eqn:Hmf.
    { destruct (md_failure_kind can_read md e Hmf) as [->|[g ->]];
        [done|]. destruct (M2 g eq_refl) as [Hin Hcr]. rewrite Emd in Hin.
      apply list_elem_of_filter in Hin as [_ Hin].
      simpl. split; [done|]. split; [done|]. split; [|done].
      intros f [= <-]. by split. }
    destruct (ipynb_failure can_read nb) as [e|] eqn:Hnf.
    { destruct (N3 e eq_refl) as [g ->].
      destruct (N2 g eq_refl) as [Hin Hcr]. rewrite Enb in Hin.
      apply list_elem_of_filter in Hin as [_ Hin].
      simpl. split; [done|]. split; [done|]. split; [|done].
      intros f [= <-]. by split. }
    destruct write_outcome; simpl; (split; [done|]); (split; [done|]);
      (split; [done|]); done. }
  destruct (fs (book_dir home)); simpl; (split; [done|]);
    (split; [by split|]); (split; [done|]); done.
Qed.

Lemma main_failure_witness :
  fst (main (λ _, Directory ["a.md"]) (λ _, []) (λ _, EmptyString)
         (λ _, []) elements (λ _, false) Written ["home"]
         {["macros_used.txt" := "alpha"]})
  = {["macros_used.txt" := "alpha"]}.
Proof.
  apply (main_failure (λ _, Directory ["a.md"]) (λ _, [])
           (λ _, EmptyString) (λ _, []) elements (λ _, false) Written
           ["home"] {["macros_used.txt" := "alpha"]}).
  - vm_compute. discriminate.
  - vm_compute. discriminate.
Defined.
